(** * stocktracker: a shallow embedding of [stocktracker.py]

    The script keeps one SQLite connection to [stocks.db], asks a market-data
    provider (yfinance, and the NSE web API for the symbol list) for
    snapshots and daily bars, logs the latest close of every compared ticker
    and draws charts, all driven by a numbered text menu.

    Everything outside the script (the provider, the clock read by SQLite,
    standard input) is an explicit environment; everything the script does
    to the outside (SQL statements, provider queries, chart calls, printed
    lines) is recorded in an event trace carried by the state. Prices are
    exact rationals: rounding of binary floating point is not modelled. *)

From Stdlib Require Import QArith Qcanon Ascii String.
From stdpp Require Import base option list strings numbers gmap fin_maps.

Local Open Scope string_scope.
Local Open Scope Z_scope.
Local Open Scope list_scope.

(** ** Values *)

(** A price, a close, a moving average: a real number. *)
Abbreviation price := Qc (only parsing).

(** The ISO date text that SQLite's [DATE] produces, kept as the number of
    days since 1970-01-01 (the text and the day number determine each
    other). *)
Abbreviation date := Z (only parsing).

(** One daily bar of [Ticker.history]: the frame's index and its columns. *)
Record bar := Bar {
  Date : date;
  Open : price;
  High : price;
  Low : price;
  Close : price;
  Volume : Z
}.

(** The frame returned by [Ticker.history], rows in chronological order. *)
Abbreviation series := (list bar) (only parsing).

(** A Python value as found in the provider's [info] dictionary. *)
Inductive pyval :=
| PNone
| PNum (x : price)
| PStr (s : string).

(** A row of the [stocks] table: [(symbol TEXT, date TEXT, price REAL)]. *)
Record row := Row {
  symbol : string;
  rdate : date;
  rprice : price
}.

(** The tables of a database file, by name. *)
Abbreviation catalog := (gmap string (list row)) (only parsing).

(** ** Exceptions and results *)

Inductive exn :=
| EOFError            (* input() at the end of standard input *)
| IndexError          (* .iloc[-1] on an empty column *)
| ProviderError       (* anything yfinance raises *)
| RequestException    (* requests.exceptions.RequestException *)
| OtherError          (* any other exception of the HTTP path *)
| OperationalError    (* sqlite3: no such table *)
| ProgrammingError.   (* sqlite3: operation on a closed database *)

Inductive result (A : Type) :=
| Ok (a : A)
| Raise (e : exn).
Arguments Ok {A} a.
Arguments Raise {A} e.

Definition is_ok {A} (r : result A) : bool :=
  match r with Ok _ => true | Raise _ => false end.

(** ** The environment *)

Record env := Env {
  (** [yf.Ticker(sym).history(period=p)] *)
  history : string -> string -> result (list bar);
  (** [yf.Ticker(sym).info] *)
  info : string -> result (gmap string pyval);
  (** [session.get("https://www.nseindia.com", ...)], outside the [try] *)
  nse_home : result unit;
  (** [session.get(url, ...)], [raise_for_status], [json] and the symbols of
      the entries under ["data"] *)
  nse_index : result (list string);
  (** UTC time, in seconds since the epoch, at the k-th reading of the clock
      by the database engine *)
  utc_now : nat -> Z;
  (** offset of the process's local time zone from UTC, in seconds *)
  tz_offset : Z
}.

(** ** Events *)

Inductive sql :=
| CreateTableIfNotExists (table : string)
| InsertInto (table : string) (sym : string) (p : price).

Inductive plt_call :=
| Figure
| Plot (xs : list date) (ys : list (option price)) (label : string)
| XLabel (s : string)
| YLabel (s : string)
| Title (s : string)
| Legend
| Grid
| Show.

Inductive line :=
| Menu
| StockList (symbols : list (string * string))
| CurrentPrice (sym : string) (p : price)
| NoDataAvailable
| NoDataFor (sym : string)
| StockDetails (details : list (string * pyval))
| ListError
| Exiting
| InvalidChoice.

Inductive event :=
| Execute (stmt : sql)
| Commit
| CloseConn
| QueryHistory (sym period : string)
| QueryInfo (sym : string)
| HttpGet (url : string)
| Plt (c : plt_call)
| Print (l : line)
| Input (prompt : string).

(** ** The state of a run *)

Record world := World {
  (** what [stocks.db] holds: committed data *)
  disk : gmap string (list row);
  (** what the connection sees: [disk] plus the open transaction *)
  view : gmap string (list row);
  (** the connection has not been closed *)
  conn_open : bool;
  (** how many times the engine has read the clock *)
  clock_reads : nat;
  trace : list event
}.

(** ** The monad of the script: state, and exceptions that keep the state *)

Definition M (A : Type) : Type := world -> result A * world.

Definition ret {A} (a : A) : M A := fun w => (Ok a, w).

Definition raise {A} (e : exn) : M A := fun w => (Raise e, w).

Definition bind {A B} (f : A -> M B) (m : M A) : M B :=
  fun w =>
    match m w with
    | (Ok a, w') => f a w'
    | (Raise e, w') => (Raise e, w')
    end.

#[export] Instance M_ret : MRet M := @ret.
#[export] Instance M_bind : MBind M := @bind.

(** [try: m except e: h] for one exception class. *)
Definition try_except {A} (m : M A) (caught : exn -> bool) (h : exn -> M A) : M A :=
  fun w =>
    match m w with
    | (Ok a, w') => (Ok a, w')
    | (Raise e, w') => if caught e then h e w' else (Raise e, w')
    end.

Definition emit (e : event) : M unit :=
  fun w => (Ok tt, World (disk w) (view w) (conn_open w) (clock_reads w) (trace w ++ [e])).

Definition lift {A} (r : result A) : M A := fun w => (r, w).

(** [for x in l: body(x)] *)
Fixpoint for_each {A} (body : A -> M unit) (l : list A) : M unit :=
  match l with
  | [] => mret tt
  | x :: l' => body x ;; for_each body l'
  end.

(** ** The SQLite connection *)

(** [DATE('now')]: SQLite evaluates ['now'] in UTC. *)
Definition sqlite_date_now (E : env) (k : nat) : date := utc_now E k `div` 86400.

(** The calendar date of the same instant in the process's own time zone. *)
Definition local_date_now (E : env) (k : nat) : date :=
  (utc_now E k + tz_offset E) `div` 86400.

(** [sqlite3.connect("stocks.db")] followed by [conn.cursor()], on a file
    holding the tables [file]. *)
Definition connect (file : gmap string (list row)) : world := World file file true 0 [].

Definition set_view (v : gmap string (list row)) (w : world) : world :=
  World (disk w) v (conn_open w) (clock_reads w) (trace w).

Definition tick (w : world) : world :=
  World (disk w) (view w) (conn_open w) (S (clock_reads w)) (trace w).

(** What a statement does to the tables the connection sees. *)
Definition run_sql (E : env) (stmt : sql) : M unit :=
  fun w =>
    match stmt with
    | CreateTableIfNotExists t =>
        match view w !! t with
        | Some _ => (Ok tt, w)
        | None => (Ok tt, set_view (<[t := []]> (view w)) w)
        end
    | InsertInto t sym p =>
        match view w !! t with
        | Some rows =>
            let r := Row sym (sqlite_date_now E (clock_reads w)) p in
            (Ok tt, tick (set_view (<[t := rows ++ [r]]> (view w)) w))
        | None => (Raise OperationalError, w)
        end
    end.

Definition check_open : M unit :=
  fun w => if conn_open w then (Ok tt, w) else (Raise ProgrammingError, w).

(** [cursor.execute(stmt, params)] *)
Definition cursor_execute (E : env) (stmt : sql) : M unit :=
  emit (Execute stmt) ;; check_open ;; run_sql E stmt.

Definition flush : M unit :=
  fun w => (Ok tt, World (view w) (view w) (conn_open w) (clock_reads w) (trace w)).

(** [conn.commit()]: the open transaction reaches the file. *)
Definition conn_commit : M unit :=
  emit Commit ;; check_open ;; flush.

Definition release : M unit :=
  fun w => (Ok tt, World (disk w) (disk w) false (clock_reads w) (trace w)).

(** [conn.close()]: what was not committed is rolled back; closing a closed
    connection is allowed. *)
Definition conn_close : M unit :=
  emit CloseConn ;; release.

(** ** pandas: [Series.rolling(window).mean()]

    The column is a list of floats, [None] standing for NaN. pandas slides
    the window along the column, keeping the number of observations and their
    sum, adding the values that enter and removing those that leave; with an
    integer window [min_periods] is the window itself. *)

Record mean_state := MeanState { nobs : nat; sum_x : Qc }.

Definition mean_zero : mean_state := MeanState 0 0%Qc.

Definition add_mean (st : mean_state) (val : option Qc) : mean_state :=
  match val with
  | Some x => MeanState (S (nobs st)) (sum_x st + x)%Qc
  | None => st
  end.

Definition remove_mean (st : mean_state) (val : option Qc) : mean_state :=
  match val with
  | Some x => MeanState (pred (nobs st)) (sum_x st - x)%Qc
  | None => st
  end.

Definition Qc_of_nat (n : nat) : Qc := Q2Qc (inject_Z (Z.of_nat n)).

Definition calc_mean (minp : nat) (st : mean_state) : option Qc :=
  if (minp <=? nobs st)%nat && (0 <? nobs st)%nat
  then Some (sum_x st / Qc_of_nat (nobs st))%Qc
  else None.

(** [values[a:b]] *)
Definition slice {A} (values : list A) (a b : nat) : list A :=
  take (b - a) (drop a values).

(** Bounds of the fixed window that ends at position [i]. *)
Definition window_start (window i : nat) : nat := (i + 1 - window)%nat.
Definition window_end (i : nat) : nat := (i + 1)%nat.

Fixpoint roll_mean_loop (window minp : nat) (values : list (option Qc))
    (positions : list nat) (st : mean_state) : list (option Qc) :=
  match positions with
  | [] => []
  | i :: positions' =>
      let s := window_start window i in
      let e := window_end i in
      let st' :=
        if (i =? 0)%nat || (window_end (i - 1) <=? s)%nat
        then foldl add_mean mean_zero (slice values s e)
        else
          let st1 :=
            foldl remove_mean st (slice values (window_start window (i - 1)) s) in
          foldl add_mean st1 (slice values (window_end (i - 1)) e) in
      calc_mean minp st' :: roll_mean_loop window minp values positions' st'
  end.

Definition rolling_mean (window : nat) (values : list (option Qc)) : list (option Qc) :=
  roll_mean_loop window window values (seq 0 (length values)) mean_zero.

(** ** Python strings *)

(** [str.upper] on ASCII letters; other bytes are kept. *)
Definition upper_ascii (c : ascii) : ascii :=
  let n := nat_of_ascii c in
  if (97 <=? n)%nat && (n <=? 122)%nat then ascii_of_nat (n - 32) else c.

Fixpoint upper (s : string) : string :=
  match s with
  | EmptyString => EmptyString
  | String c s' => String (upper_ascii c) (upper s')
  end.

(** [s.split(", ")], [cur] being the piece read so far. *)
Fixpoint split_comma_space (s cur : string) : list string :=
  match s with
  | EmptyString => [cur]
  | String "," (String " " s') => cur :: split_comma_space s' ""
  | String c s' => split_comma_space s' (cur +:+ String c EmptyString)
  end.

(** [column.iloc[-1]] *)
Definition iloc_last {A} (column : list A) : M A :=
  match last column with
  | Some x => mret x
  | None => raise IndexError
  end.

(** [frame.empty] *)
Definition empty_frame {A} (data : list A) : bool :=
  match data with [] => true | _ => false end.

(** ** The script *)

Section Script.

Variable E : env.

(** [yf.Ticker(sym).info] *)
Definition ticker_info (sym : string) : M (gmap string pyval) :=
  emit (QueryInfo sym) ;; lift (info E sym).

(** [yf.Ticker(sym).history(period=period)] *)
Definition ticker_history (sym period : string) : M (list bar) :=
  emit (QueryHistory sym period) ;; lift (history E sym period).

(** [info.get(key)] *)
Definition dict_get (d : gmap string pyval) (key : string) : pyval :=
  default PNone (d !! key).

(** The statements run when the module is loaded, after [connect]. *)
Definition module_init : M unit :=
  cursor_execute E (CreateTableIfNotExists "stocks") ;;
  conn_commit.

Definition is_request_exception (e : exn) : bool :=
  match e with RequestException => true | _ => false end.

Definition fetch_nse_stock_list : M (option (list (string * string))) :=
  emit (HttpGet "https://www.nseindia.com") ;;
  lift (nse_home E) ;;
  try_except
    (emit (HttpGet "https://www.nseindia.com/api/equity-stockIndices?index=NIFTY%20500") ;;
     data ← lift (nse_index E) ;
     mret (Some ((fun sym => (sym, sym +:+ ".NS")) <$> data)))
    is_request_exception
    (fun _ => emit (Print ListError) ;; mret None).

Definition get_stock_details (ticker : string) : M (list (string * pyval)) :=
  info ← ticker_info (ticker +:+ ".NS") ;
  mret [ ("Current Price", dict_get info "currentPrice");
         ("52W High", dict_get info "fiftyTwoWeekHigh");
         ("52W Low", dict_get info "fiftyTwoWeekLow");
         ("Market Cap", dict_get info "marketCap");
         ("P/E Ratio", dict_get info "trailingPE");
         ("Dividend Yield", dict_get info "dividendYield");
         ("Previous Close", dict_get info "previousClose") ].

Definition get_stock_price (ticker : string) : M (list bar) :=
  data ← ticker_history (ticker +:+ ".NS") "6mo" ;
  mret data.

Definition save_to_db (ticker : string) (p : Qc) : M unit :=
  cursor_execute E (InsertInto "stocks" ticker p) ;;
  conn_commit.

(** The body of the loop of [track_multiple_stocks]. *)
Definition track_one (ticker : string) : M unit :=
  data ← get_stock_price ticker ;
  if negb (empty_frame data) then
    emit (Plt (Plot (Date <$> data) (Some <$> (Close <$> data)) ticker)) ;;
    latest ← iloc_last (Close <$> data) ;
    save_to_db ticker latest
  else mret tt.

Definition track_multiple_stocks (tickers : list string) : M unit :=
  emit (Plt Figure) ;;
  for_each track_one tickers ;;
  emit (Plt (XLabel "Date")) ;;
  emit (Plt (YLabel "Stock Price (₹)")) ;;
  emit (Plt (Title "Stock Price Comparison")) ;;
  emit (Plt Legend) ;;
  emit (Plt Grid) ;;
  emit (Plt Show).

(** The two columns added by [plot_with_moving_averages]. *)
Definition MA_50 (data : list bar) : list (option Qc) :=
  rolling_mean 50 (Some <$> (Close <$> data)).

Definition MA_200 (data : list bar) : list (option Qc) :=
  rolling_mean 200 (Some <$> (Close <$> data)).

Definition plot_with_moving_averages (ticker : string) : M unit :=
  data ← get_stock_price ticker ;
  if empty_frame data then
    emit (Print (NoDataFor ticker))
  else
    emit (Plt Figure) ;;
    emit (Plt (Plot (Date <$> data) (Some <$> (Close <$> data)) "Closing Price")) ;;
    emit (Plt (Plot (Date <$> data) (MA_50 data) "50-day MA")) ;;
    emit (Plt (Plot (Date <$> data) (MA_200 data) "200-day MA")) ;;
    emit (Plt (XLabel "Date")) ;;
    emit (Plt (YLabel "Stock Price (₹)")) ;;
    emit (Plt (Title (ticker +:+ " Stock Trend with Moving Averages"))) ;;
    emit (Plt Legend) ;;
    emit (Plt Grid) ;;
    emit (Plt Show).

(** *** The menu *)

Definition choice_prompt : string := "Select an option (1-6): ".
Definition ticker_prompt : string := "Enter stock ticker (e.g., TCS, RELIANCE, INFY): ".
Definition tickers_prompt : string :=
  "Enter stock tickers (comma-separated, e.g., TCS, RELIANCE, INFY): ".

(** [input(prompt)] when standard input is exhausted. *)
Definition input_eof (prompt : string) : M unit :=
  emit (Input prompt) ;; raise EOFError.

Definition option_1 : M unit :=
  df ← fetch_nse_stock_list ;
  match df with
  | Some l => emit (Print (StockList l))
  | None => mret tt
  end.

Definition option_2 (answer : string) : M unit :=
  let stock_symbol := upper answer in
  data ← get_stock_price stock_symbol ;
  if negb (empty_frame data) then
    latest_price ← iloc_last (Close <$> data) ;
    emit (Print (CurrentPrice stock_symbol latest_price))
  else emit (Print NoDataAvailable).

Definition option_3 (answer : string) : M unit :=
  let stock_symbol := upper answer in
  details ← get_stock_details stock_symbol ;
  emit (Print (StockDetails details)).

Definition option_4 (answer : string) : M unit :=
  let stock_symbols := split_comma_space (upper answer) "" in
  track_multiple_stocks stock_symbols.

Definition option_5 (answer : string) : M unit :=
  let stock_symbol := upper answer in
  plot_with_moving_averages stock_symbol.

(** [while True: ...], reading the lines of [stdin] one by one; [input]
    raises [EOFError] when none is left. *)
Fixpoint menu_loop (stdin : list string) {struct stdin} : M unit :=
  emit (Print Menu) ;;
  match stdin with
  | [] => input_eof choice_prompt
  | choice :: stdin1 =>
      emit (Input choice_prompt) ;;
      if String.eqb choice "1" then
        option_1 ;; menu_loop stdin1
      else if String.eqb choice "2" then
        match stdin1 with
        | [] => input_eof ticker_prompt
        | answer :: stdin2 =>
            emit (Input ticker_prompt) ;; option_2 answer ;; menu_loop stdin2
        end
      else if String.eqb choice "3" then
        match stdin1 with
        | [] => input_eof ticker_prompt
        | answer :: stdin2 =>
            emit (Input ticker_prompt) ;; option_3 answer ;; menu_loop stdin2
        end
      else if String.eqb choice "4" then
        match stdin1 with
        | [] => input_eof tickers_prompt
        | answer :: stdin2 =>
            emit (Input tickers_prompt) ;; option_4 answer ;; menu_loop stdin2
        end
      else if String.eqb choice "5" then
        match stdin1 with
        | [] => input_eof ticker_prompt
        | answer :: stdin2 =>
            emit (Input ticker_prompt) ;; option_5 answer ;; menu_loop stdin2
        end
      else if String.eqb choice "6" then
        emit (Print Exiting)
      else
        emit (Print InvalidChoice) ;; menu_loop stdin1
  end.

(** The whole script, from the first statement after [connect] to
    [conn.close()]. *)
Definition script (stdin : list string) : M unit :=
  module_init ;;
  menu_loop stdin ;;
  conn_close.

(** A run of the script on the database file [file] and the input [stdin]:
    how it ends (normally, or by an uncaught exception) and the final
    state. *)
Definition run (file : gmap string (list row)) (stdin : list string) : result unit * world :=
  script stdin (connect file).

End Script.

(** ** Specification-side definitions *)

(** Every table keeps the rows it had, in their order, possibly followed by
    new ones. *)
Definition grows (c c' : gmap string (list row)) : Prop :=
  forall t rows, c !! t = Some rows -> exists extra, c' !! t = Some (rows ++ extra).

(** The [INSERT]s among the statements of a trace, as [(symbol, price)]. *)
Definition insert_of (e : event) : option (string * Qc) :=
  match e with
  | Execute (InsertInto _ sym p) => Some (sym, p)
  | _ => None
  end.

Definition inserts (tr : list event) : list (string * Qc) := omap insert_of tr.

Definition is_close (e : event) : bool :=
  match e with CloseConn => true | _ => false end.

(** How many times [conn.close()] was called. *)
Definition closes (tr : list event) : nat := length (filter (fun e => is_close e = true) tr).


(** The arithmetic mean of a list of numbers. *)
Definition sum_list (l : list Qc) : Qc := foldr Qcplus 0%Qc l.

Definition mean (l : list Qc) : Qc := (sum_list l / Qc_of_nat (length l))%Qc.

(** The [n] values of [l] that end at position [i]. *)
Definition trailing (n : nat) (l : list Qc) (i : nat) : list Qc :=
  take n (drop (i + 1 - n) l).

(** What the comparison batch is expected to log for one ticker: the close
    of the last bar when the provider has bars, nothing otherwise. *)
Definition latest_close (E : env) (ticker : string) : list (string * Qc) :=
  match history E (ticker +:+ ".NS") "6mo" with
  | Ok data =>
      match last data with
      | Some b => [(ticker, Close b)]
      | None => []
      end
  | Raise _ => []
  end.

(** The rows that a sequence of logged [(symbol, price)] pairs becomes when
    the first of them is inserted at the [k]-th reading of the clock. *)
Fixpoint stamp (E : env) (k : nat) (l : list (string * Qc)) : list row :=
  match l with
  | [] => []
  | (sym, p) :: l' => Row sym (sqlite_date_now E k) p :: stamp E (S k) l'
  end.

(** The provider answers the series query for this ticker. *)
Definition answers (E : env) (ticker : string) : Prop :=
  is_ok (history E (ticker +:+ ".NS") "6mo") = true.

(** Nothing but [conn.close()] changes the number of close calls or the
    state of the handle. *)
Definition same_handle (w w' : world) : Prop :=
  closes (trace w') = closes (trace w) /\ conn_open w' = conn_open w.

(** What is committed is part of what the connection sees; and a step only
    adds to what was committed. *)
Definition only_appends (w w' : world) : Prop :=
  grows (disk w) (view w) ->
  grows (disk w') (view w') /\ grows (disk w) (disk w').

(** Number and sum of a list of known values: what the sliding window holds
    when it covers exactly them. *)
Definition stat (xs : list Qc) : mean_state := MeanState (length xs) (sum_list xs).

(** The values under the window that ends at position [i]. *)
Definition under_window (window : nat) (xs : list Qc) (i : nat) : list Qc :=
  slice xs (window_start window i) (window_end i).

(** The store as the script can observe it: the file, the connection's
    view, the handle and the engine's clock. *)
Definition same_store (w w' : world) : Prop :=
  disk w' = disk w /\ view w' = view w /\
  conn_open w' = conn_open w /\ clock_reads w' = clock_reads w.

(** The curves among the events of a trace. *)
Definition plot_of (e : event) : option (list Z * list (option Qc) * string) :=
  match e with
  | Plt (Plot xs ys label) => Some (xs, ys, label)
  | _ => None
  end.

Definition plots (tr : list event) : list (list Z * list (option Qc) * string) :=
  omap plot_of tr.

(** Exceptions that come from outside the script: the end of standard input
    and the failures of the provider and of the HTTP path. *)
Definition outside_failure (e : exn) : bool :=
  match e with
  | EOFError | ProviderError | RequestException | OtherError => true
  | IndexError | OperationalError | ProgrammingError => false
  end.

(** The provider raises nothing but failures of its own. *)
Definition raises_only_outside (E : env) : Prop :=
  (forall sym period e, history E sym period = Raise e -> outside_failure e = true) /\
  (forall sym e, info E sym = Raise e -> outside_failure e = true) /\
  (forall e, nse_home E = Raise e -> outside_failure e = true) /\
  (forall e, nse_index E = Raise e -> outside_failure e = true).

(** [", ".join(pieces)] *)
Fixpoint join_comma_space (pieces : list string) : string :=
  match pieces with
  | [] => ""
  | [piece] => piece
  | piece :: pieces' => piece +:+ ", " +:+ join_comma_space pieces'
  end.

(** The series queries among the events of a trace. *)
Definition query_of (e : event) : option (string * string) :=
  match e with
  | QueryHistory sym period => Some (sym, period)
  | _ => None
  end.

Definition queries (tr : list event) : list (string * string) := omap query_of tr.

(** The curve a comparison chart is expected to hold for one ticker: its
    closes over its dates, under its name, when the provider has bars. *)
Definition curve_of (E : env) (ticker : string)
    : list (list Z * list (option Qc) * string) :=
  match history E (ticker +:+ ".NS") "6mo" with
  | Ok (b :: data) =>
      [(Date <$> b :: data, Some <$> (Close <$> b :: data), ticker)]
  | _ => []
  end.

(** The string holds no separator [", "]. *)
Definition sep_free (piece : string) : Prop :=
  forall a b, piece <> a +:+ ", " +:+ b.

(** [cur] put in front of the first piece. *)
Definition prepend (cur : string) (pieces : list string) : list string :=
  match pieces with
  | [] => []
  | piece :: pieces' => (cur +:+ piece) :: pieces'
  end.

(** ** Concrete data used in examples *)

Definition q (z : Z) : Qc := Q2Qc (inject_Z z).

Definition day (d c : Z) : bar := Bar d (q c) (q c) (q c) (q c) 0.

(** Five daily closes 100, 102, 104, 106, 108. *)
Definition five_closes : list bar :=
  [day 19718 100; day 19719 102; day 19720 104; day 19721 106; day 19722 108].

(** A provider that has the five bars for "X", cannot be reached for
    "DOWN" and has nothing for any other symbol; its snapshot of "X" holds a
    current price only. The clock stands at 2024-01-01 20:00:00 UTC, which is
    2024-01-02 01:30 in a process running at UTC+05:30. *)
Definition sample_env : env :=
  {| history := fun sym _ =>
       if String.eqb sym "X.NS" then Ok five_closes
       else if String.eqb sym "DOWN.NS" then Raise ProviderError
       else Ok [];
     info := fun sym =>
       if String.eqb sym "X.NS" then Ok {[ "currentPrice" := PNum (q 108) ]}
       else if String.eqb sym "DOWN.NS" then Raise ProviderError
       else Ok ∅;
     nse_home := Ok tt;
     nse_index := Ok ["X"];
     utc_now := fun _ => 1704139200;
     tz_offset := 19800 |}.

(** The fractions behind a column, to compare computed values. *)
Definition readings (column : list (option Qc)) : list (option Q) :=
  (fun v : option Qc => this <$> v) <$> column.

(** A store right after start-up on a new file. *)
Definition fresh_store : world :=
  World {[ "stocks" := [] ]} {[ "stocks" := [] ]} true 0 [].

(** A bar series of [n] days with closes 1, 2, ..., [n]. *)
Definition ramp (n : nat) : list bar :=
  (fun k => day (Z.of_nat k) (Z.of_nat (S k))) <$> seq 0 n.

(** ** Running the monad *)

Ltac unfold_M :=
  unfold mbind, M_bind, bind, mret, M_ret, ret, raise, lift, emit,
    check_open, flush, release, set_view, tick in *.

Lemma bind_ok {A B} (m : M A) (f : A -> M B) w a w' :
  m w = (Ok a, w') -> (m ≫= f) w = f a w'.
Proof. intros H. unfold mbind, M_bind, bind. by rewrite H. Qed.

Lemma bind_raise {A B} (m : M A) (f : A -> M B) w e w' :
  m w = (Raise e, w') -> (m ≫= f) w = (Raise e, w').
Proof. intros H. unfold mbind, M_bind, bind. by rewrite H. Qed.

Lemma emit_run e w :
  emit e w = (Ok tt, World (disk w) (view w) (conn_open w) (clock_reads w) (trace w ++ [e])).
Proof. reflexivity. Qed.

(** ** The store *)

Lemma cursor_execute_insert E sym p w rows :
  conn_open w = true ->
  view w !! "stocks" = Some rows ->
  cursor_execute E (InsertInto "stocks" sym p) w =
    (Ok tt,
     World (disk w)
       (<["stocks" := rows ++ [Row sym (sqlite_date_now E (clock_reads w)) p]]> (view w))
       true (S (clock_reads w))
       (trace w ++ [Execute (InsertInto "stocks" sym p)])).
Proof.
  intros Hopen Hrows. unfold cursor_execute, run_sql. unfold_M. simpl.
  rewrite Hopen. simpl. by rewrite Hrows.
Qed.

Lemma conn_commit_open w :
  conn_open w = true ->
  conn_commit w =
    (Ok tt, World (view w) (view w) true (clock_reads w) (trace w ++ [Commit])).
Proof. intros Hopen. unfold conn_commit. unfold_M. simpl. by rewrite Hopen. Qed.

Lemma save_to_db_run E ticker p w rows :
  conn_open w = true ->
  view w !! "stocks" = Some rows ->
  save_to_db E ticker p w =
    (Ok tt,
     let v := <["stocks" := rows ++ [Row ticker (sqlite_date_now E (clock_reads w)) p]]> (view w) in
     World v v true (S (clock_reads w))
       (trace w ++ [Execute (InsertInto "stocks" ticker p); Commit])).
Proof.
  intros Hopen Hrows. unfold save_to_db.
  erewrite bind_ok by (by apply cursor_execute_insert).
  rewrite conn_commit_open by done. simpl. by rewrite <- app_assoc.
Qed.

Lemma module_init_run E w :
  conn_open w = true ->
  module_init E w =
    (Ok tt,
     let v := match view w !! "stocks" with
              | Some _ => view w
              | None => <["stocks" := []]> (view w)
              end in
     World v v true (clock_reads w)
       (trace w ++ [Execute (CreateTableIfNotExists "stocks"); Commit])).
Proof.
  intros Hopen. unfold module_init, cursor_execute, conn_commit, run_sql. unfold_M. simpl.
  rewrite Hopen. simpl. destruct (view w !! "stocks"); simpl; rewrite ?Hopen; by rewrite <- app_assoc.
Qed.

(** Start-up on a new file leaves the store of the examples. *)
Example fresh_store_after_init :
  let w := (module_init sample_env (connect ∅)).2 in
  disk w = disk fresh_store /\ view w = view fresh_store /\
  conn_open w = conn_open fresh_store /\ clock_reads w = clock_reads fresh_store.
Proof. rewrite module_init_run by reflexivity. simpl. by rewrite lookup_empty. Qed.

(** ** Claims about the store *)

(** C3, as amended. For every symbol and price, on a connected store holding
    the [stocks] table, [save_to_db] succeeds and leaves the table with
    exactly one more row, placed after the existing ones and made of the
    symbol, the engine's current UTC date ([DATE('now')]) and the price;
    no other table changes, the row is committed, and the only statements
    issued are that one [INSERT] and the commit. *)
Theorem save_to_db_appends_one_row E ticker p w rows :
  conn_open w = true ->
  view w !! "stocks" = Some rows ->
  exists w',
    save_to_db E ticker p w = (Ok tt, w') /\
    view w' !! "stocks" =
      Some (rows ++ [Row ticker (sqlite_date_now E (clock_reads w)) p]) /\
    (forall t, t <> "stocks" -> view w' !! t = view w !! t) /\
    disk w' = view w' /\
    trace w' = trace w ++ [Execute (InsertInto "stocks" ticker p); Commit].
Proof.
  intros Hopen Hrows. eexists. split; [by apply save_to_db_run|]. simpl.
  repeat split.
  - by rewrite lookup_insert_eq.
  - intros t Ht. by rewrite lookup_insert_ne.
Qed.

Lemma save_to_db_appends_one_row_witness :
  exists w',
    save_to_db sample_env "X" (q 108) fresh_store = (Ok tt, w') /\
    view w' !! "stocks" =
      Some ([] ++ [Row "X" (sqlite_date_now sample_env (clock_reads fresh_store)) (q 108)]) /\
    (forall t, t <> "stocks" -> view w' !! t = view fresh_store !! t) /\
    disk w' = view w' /\
    trace w' = trace fresh_store ++ [Execute (InsertInto "stocks" "X" (q 108)); Commit].
Proof.
  apply (save_to_db_appends_one_row sample_env "X" (q 108) fresh_store []);
    reflexivity.
Defined.

(** C3 as stated fails: at 20:00 UTC in a process at UTC+05:30 the row
    carries the UTC date (day 19723), not the process-local date (day
    19724). *)
Lemma save_to_db_date_not_local :
  view (save_to_db sample_env "X" (q 108) fresh_store).2 !! "stocks" =
    Some [Row "X" 19723 (q 108)] /\
  local_date_now sample_env (clock_reads fresh_store) = 19724 /\
  view (save_to_db sample_env "X" (q 108) fresh_store).2 !! "stocks" <>
    Some [Row "X" (local_date_now sample_env (clock_reads fresh_store)) (q 108)].
Proof.
  rewrite (save_to_db_run sample_env "X" (q 108) fresh_store []) by reflexivity.
  simpl. rewrite lookup_insert_eq.
  split; [reflexivity|]. split; [reflexivity|]. intros Heq.
  assert (Hd : sqlite_date_now sample_env 0 = local_date_now sample_env 0) by congruence.
  vm_compute in Hd. discriminate Hd.
Qed.

(** C10. [save_to_db] checks nothing about its arguments: whatever the
    symbol and the price, the call succeeds and the new row carries them
    unchanged; so it does for the empty symbol and for a negative price. *)
Theorem save_to_db_no_validation E w rows :
  conn_open w = true ->
  view w !! "stocks" = Some rows ->
  (forall ticker p,
     (save_to_db E ticker p w).1 = Ok tt /\
     exists d,
       view (save_to_db E ticker p w).2 !! "stocks" = Some (rows ++ [Row ticker d p])) /\
  (exists d,
     view (save_to_db E "" (q (-1)) w).2 !! "stocks" = Some (rows ++ [Row "" d (q (-1))]) /\
     (q (-1) < 0)%Qc).
Proof.
  intros Hopen Hrows.
  assert (Hall : forall ticker p,
     (save_to_db E ticker p w).1 = Ok tt /\
     exists d,
       view (save_to_db E ticker p w).2 !! "stocks" = Some (rows ++ [Row ticker d p])).
  { intros ticker p. rewrite (save_to_db_run E ticker p w rows) by done. simpl.
    split; [done|]. eexists. by rewrite lookup_insert_eq. }
  split; [exact Hall|].
  destruct (Hall "" (q (-1))) as [_ [d Hd]]. exists d. split; [exact Hd | reflexivity].
Qed.

Lemma save_to_db_no_validation_witness :
  (forall ticker p,
     (save_to_db sample_env ticker p fresh_store).1 = Ok tt /\
     exists d,
       view (save_to_db sample_env ticker p fresh_store).2 !! "stocks" =
         Some ([] ++ [Row ticker d p])) /\
  (exists d,
     view (save_to_db sample_env "" (q (-1)) fresh_store).2 !! "stocks" =
       Some ([] ++ [Row "" d (q (-1))]) /\
     (q (-1) < 0)%Qc).
Proof.
  apply (save_to_db_no_validation sample_env fresh_store []); reflexivity.
Defined.

(** C4. Running the start-up statements on any database file succeeds and
    leaves a [stocks] table; running them again, in the next process or on
    the same connection, succeeds too and changes nothing: the file holds the
    tables it had, with their rows, and the one [stocks] table. *)
Theorem module_init_idempotent E file :
  let first := module_init E (connect file) in
  let second := module_init E (connect (disk first.2)) in
  first.1 = Ok tt /\
  second.1 = Ok tt /\
  disk second.2 = disk first.2 /\
  (module_init E first.2).1 = Ok tt /\
  disk (module_init E first.2).2 = disk first.2 /\
  is_Some (disk first.2 !! "stocks") /\
  dom (disk second.2) = {["stocks"]} ∪ dom file /\
  (forall t rows, file !! t = Some rows -> disk second.2 !! t = Some rows).
Proof.
  intros first second. subst first second.
  rewrite (module_init_run E (connect file)) by reflexivity. simpl.
  set (v := match file !! "stocks" with Some _ => file | None => <["stocks" := []]> file end).
  assert (Hv : is_Some (v !! "stocks")).
  { subst v. destruct (file !! "stocks") eqn:Hf; [by rewrite Hf|].
    rewrite lookup_insert_eq. by eexists. }
  rewrite (module_init_run E (connect v)) by reflexivity. simpl.
  rewrite (module_init_run E (World v v true 0 _)) by reflexivity. simpl.
  destruct Hv as [rows0 Hv]. rewrite Hv.
  repeat split; [by eexists | |].
  - subst v. destruct (file !! "stocks") eqn:Hf.
    + apply set_eq. intros t. rewrite elem_of_union, elem_of_singleton, !elem_of_dom.
      split; [tauto|]. intros [->|Ht]; [by rewrite Hf | done].
    + by rewrite dom_insert_L.
  - intros t rows Ht. subst v. destruct (file !! "stocks") eqn:Hf; [done|].
    rewrite lookup_insert_ne; [done|]. intros <-. congruence.
Qed.

(** ** Claims about the gateway *)

Lemma ticker_history_run E sym period w :
  ticker_history E sym period w =
    (history E sym period,
     World (disk w) (view w) (conn_open w) (clock_reads w)
       (trace w ++ [QueryHistory sym period])).
Proof. unfold ticker_history. unfold_M. simpl. by destruct (history E sym period). Qed.

Lemma get_stock_price_run E ticker w :
  get_stock_price E ticker w =
    (history E (ticker +:+ ".NS") "6mo",
     World (disk w) (view w) (conn_open w) (clock_reads w)
       (trace w ++ [QueryHistory (ticker +:+ ".NS") "6mo"])).
Proof.
  unfold get_stock_price. unfold mbind, M_bind, bind. rewrite ticker_history_run.
  by destruct (history E (ticker +:+ ".NS") "6mo").
Qed.

Lemma ticker_info_run E sym w :
  ticker_info E sym w =
    (info E sym,
     World (disk w) (view w) (conn_open w) (clock_reads w) (trace w ++ [QueryInfo sym])).
Proof. unfold ticker_info. unfold_M. simpl. by destruct (info E sym). Qed.

(** C8. For every ticker, [get_stock_details] and [get_stock_price] each
    send the provider one query, for the ticker followed by ".NS"; the
    series query asks for the period "6mo"; and each function hands back
    the provider's answer to that query (the series as it is, a failure as
    the same failure). *)
Theorem gateway_queries_qualified_symbol E ticker w :
  trace (get_stock_details E ticker w).2 = trace w ++ [QueryInfo (ticker +:+ ".NS")] /\
  trace (get_stock_price E ticker w).2 =
    trace w ++ [QueryHistory (ticker +:+ ".NS") "6mo"] /\
  (get_stock_price E ticker w).1 = history E (ticker +:+ ".NS") "6mo" /\
  is_ok (get_stock_details E ticker w).1 = is_ok (info E (ticker +:+ ".NS")).
Proof.
  rewrite get_stock_price_run. unfold get_stock_details.
  unfold mbind, M_bind, bind. rewrite ticker_info_run.
  by destruct (info E (ticker +:+ ".NS")).
Qed.




(** ** The comparison batch *)

Lemma inserts_app tr1 tr2 : inserts (tr1 ++ tr2) = inserts tr1 ++ inserts tr2.
Proof. apply omap_app. Qed.

Lemma stamp_app E k l1 l2 :
  stamp E k (l1 ++ l2) = stamp E k l1 ++ stamp E (k + length l1) l2.
Proof.
  revert k. induction l1 as [|[sym p] l1 IH]; intros k; simpl.
  - by rewrite Nat.add_0_r.
  - rewrite IH. do 3 f_equal. lia.
Qed.

Lemma cursor_execute_trace E stmt w :
  trace (cursor_execute E stmt w).2 = trace w ++ [Execute stmt].
Proof.
  unfold cursor_execute, run_sql. unfold_M. simpl.
  destruct (conn_open w); simpl; [|done].
  destruct stmt; simpl; by destruct (view w !! table).
Qed.

Lemma conn_commit_trace w : trace (conn_commit w).2 = trace w ++ [Commit].
Proof. unfold conn_commit. unfold_M. simpl. by destruct (conn_open w). Qed.

(** Whether it succeeds or not, [save_to_db] issues its [INSERT], and only
    that one. *)
Lemma save_to_db_trace E ticker p w :
  exists new,
    trace (save_to_db E ticker p w).2 = trace w ++ new /\
    inserts new = [(ticker, p)].
Proof.
  unfold save_to_db. unfold mbind, M_bind, bind.
  pose proof (cursor_execute_trace E (InsertInto "stocks" ticker p) w) as Hx.
  destruct (cursor_execute E (InsertInto "stocks" ticker p) w) as [[[]|e] w1];
    simpl in *.
  - pose proof (conn_commit_trace w1) as Hc. rewrite Hx in Hc.
    exists [Execute (InsertInto "stocks" ticker p); Commit].
    split; [by rewrite Hc, <- app_assoc | done].
  - exists [Execute (InsertInto "stocks" ticker p)]. by split.
Qed.

Lemma iloc_last_run {A} (column : list A) w :
  iloc_last column w =
    (match last column with Some x => Ok x | None => Raise IndexError end, w).
Proof. unfold iloc_last. by destruct (last column). Qed.

Lemma last_fmap_Close (data : list bar) : last (Close <$> data) = Close <$> last data.
Proof. apply fmap_last. Qed.

Lemma empty_frame_last {A} (data : list A) :
  empty_frame data = true <-> last data = None.
Proof.
  destruct data as [|x data]; simpl; [done|].
  split; [done|]. intros H. by apply last_None in H.
Qed.

(** One turn of the loop, whatever the state of the store and the answer of
    the provider: the [INSERT]s it issues are those of [latest_close]. *)
Lemma track_one_inserts E ticker w :
  exists new,
    trace (track_one E ticker w).2 = trace w ++ new /\
    inserts new = latest_close E ticker.
Proof.
  unfold track_one, latest_close. unfold mbind at 1. unfold M_bind, bind.
  rewrite get_stock_price_run.
  destruct (history E (ticker +:+ ".NS") "6mo") as [data|e]; simpl.
  2: { by exists [QueryHistory (ticker +:+ ".NS") "6mo"]. }
  destruct (last data) as [b|] eqn:Hlast.
  - assert (Hne : empty_frame data = false).
    { destruct (empty_frame data) eqn:He; [|done].
      apply empty_frame_last in He. congruence. }
    rewrite Hne. simpl. unfold_M. simpl.
    rewrite iloc_last_run, last_fmap_Close, Hlast. simpl.
    match goal with |- context [save_to_db E ticker (Close b) ?w0] =>
      destruct (save_to_db_trace E ticker (Close b) w0) as [new [Ht Hi]] end.
    simpl in Ht. rewrite Ht.
    eexists (_ :: _ :: new). split.
    + rewrite <- !app_assoc. simpl. reflexivity.
    + simpl. exact Hi.
  - apply empty_frame_last in Hlast. rewrite Hlast. simpl.
    by exists [QueryHistory (ticker +:+ ".NS") "6mo"].
Qed.

Lemma latest_close_elem E ticker sym p :
  (sym, p) ∈ latest_close E ticker ->
  sym = ticker /\
  exists data b,
    history E (ticker +:+ ".NS") "6mo" = Ok data /\ last data = Some b /\ p = Close b.
Proof.
  unfold latest_close.
  destruct (history E (ticker +:+ ".NS") "6mo") as [data|e]; [|by intros ?%elem_of_nil].
  destruct (last data) as [b|] eqn:Hlast; [|by intros ?%elem_of_nil].
  intros Hin%list_elem_of_singleton. inversion Hin; subst. split; [done|].
  by exists data, b.
Qed.

(** The loop stops at the first turn that raises; up to there, every turn
    has issued the [INSERT]s of [latest_close]. *)
Lemma for_each_track_one_inserts E tickers w :
  exists new k,
    trace (for_each (track_one E) tickers w).2 = trace w ++ new /\
    (k <= length tickers)%nat /\
    inserts new = flat_map (latest_close E) (take k tickers) /\
    ((for_each (track_one E) tickers w).1 = Ok tt -> k = length tickers).
Proof.
  revert w. induction tickers as [|t tickers IH]; intros w; simpl.
  - exists [], 0%nat. unfold_M. simpl. by rewrite app_nil_r.
  - unfold mbind, M_bind, bind.
    destruct (track_one_inserts E t w) as [new1 [Ht1 Hi1]].
    destruct (track_one E t w) as [[[]|e] w1]; simpl in *.
    + destruct (IH w1) as [new2 [k [Ht2 [Hk [Hi2 Hok]]]]].
      exists (new1 ++ new2), (S k). repeat split.
      * by rewrite Ht2, Ht1, app_assoc.
      * lia.
      * rewrite inserts_app, Hi1, Hi2. reflexivity.
      * intros Hres. by rewrite (Hok Hres).
    + exists new1, 1%nat. repeat split; [done | lia | | done].
      rewrite Hi1. simpl. rewrite ?take_0. simpl. by rewrite app_nil_r.
Qed.

Lemma track_multiple_stocks_run E tickers w :
  track_multiple_stocks E tickers w =
    match for_each (track_one E) tickers
            (World (disk w) (view w) (conn_open w) (clock_reads w)
               (trace w ++ [Plt Figure])) with
    | (Ok _, w1) =>
        (Ok tt,
         World (disk w1) (view w1) (conn_open w1) (clock_reads w1)
           (trace w1 ++ [Plt (XLabel "Date"); Plt (YLabel "Stock Price (₹)");
                         Plt (Title "Stock Price Comparison");
                         Plt Legend; Plt Grid; Plt Show]))
    | (Raise e, w1) => (Raise e, w1)
    end.
Proof.
  unfold track_multiple_stocks. unfold mbind, M_bind, bind. rewrite emit_run.
  destruct (for_each _ _ _) as [[[]|e] w1]; [|done].
  rewrite !emit_run. simpl. by rewrite <- !app_assoc.
Qed.

Lemma track_multiple_stocks_inserts E tickers w :
  exists new k,
    trace (track_multiple_stocks E tickers w).2 = trace w ++ new /\
    (k <= length tickers)%nat /\
    inserts new = flat_map (latest_close E) (take k tickers) /\
    ((track_multiple_stocks E tickers w).1 = Ok tt -> k = length tickers).
Proof.
  rewrite track_multiple_stocks_run.
  match goal with |- context [for_each _ _ ?w0] =>
    destruct (for_each_track_one_inserts E tickers w0) as [new [k [Ht [Hk [Hi Hok]]]]] end.
  destruct (for_each _ _ _) as [[[]|e] w1]; simpl in *.
  - eexists (Plt Figure :: new ++ _), k. repeat split; [|done| |by auto].
    + rewrite Ht, <- !app_assoc. simpl. reflexivity.
    + change (Plt Figure :: ?l) with ([Plt Figure] ++ l).
      rewrite !inserts_app, Hi. simpl. by rewrite app_nil_r.
  - exists (Plt Figure :: new), k. repeat split; [|done|done|done].
    by rewrite Ht, <- app_assoc.
Qed.

(** C1. When the provider has no bars for a symbol, [get_stock_price]
    returns the empty series, not an exception, and a comparison batch,
    whatever its tickers and the state it starts in, issues no [INSERT]
    for that symbol. *)
Theorem no_data_no_save E ticker :
  history E (ticker +:+ ".NS") "6mo" = Ok [] ->
  (forall w, (get_stock_price E ticker w).1 = Ok []) /\
  (forall tickers w,
     exists new,
       trace (track_multiple_stocks E tickers w).2 = trace w ++ new /\
       forall p, (ticker, p) ∉ inserts new).
Proof.
  intros Hempty. split.
  - intros w. by rewrite get_stock_price_run.
  - intros tickers w.
    destruct (track_multiple_stocks_inserts E tickers w) as [new [k [Ht [_ [Hi _]]]]].
    exists new. split; [done|]. intros p Hin. rewrite Hi in Hin.
    apply list_elem_of_In, in_flat_map in Hin as [t [_ Hin]].
    apply list_elem_of_In, latest_close_elem in Hin as [-> [data [b [Hh [Hl _]]]]].
    rewrite Hempty in Hh. inversion Hh; subst. discriminate Hl.
Qed.

Lemma no_data_no_save_witness :
  (forall w, (get_stock_price sample_env "ZZZZ999" w).1 = Ok []) /\
  (forall tickers w,
     exists new,
       trace (track_multiple_stocks sample_env tickers w).2 = trace w ++ new /\
       forall p, ("ZZZZ999", p) ∉ inserts new).
Proof.
  apply (no_data_no_save sample_env "ZZZZ999"). reflexivity.
Defined.

Example batch_skips_unknown_symbol :
  inserts (trace (track_multiple_stocks sample_env ["X"; "ZZZZ999"] fresh_store).2) =
    [("X", q 108)].
Proof. vm_compute. reflexivity. Qed.

(** One turn of the loop on a working store, for a ticker the provider
    answers about. *)
Lemma track_one_ready E ticker w rows :
  conn_open w = true ->
  disk w = view w ->
  view w !! "stocks" = Some rows ->
  answers E ticker ->
  exists w',
    track_one E ticker w = (Ok tt, w') /\
    conn_open w' = true /\
    disk w' = view w' /\
    view w' !! "stocks" =
      Some (rows ++ stamp E (clock_reads w) (latest_close E ticker)) /\
    clock_reads w' = (clock_reads w + length (latest_close E ticker))%nat.
Proof.
  intros Hopen Hdisk Hrows Hans. unfold answers in Hans.
  unfold track_one, latest_close. unfold mbind at 1. unfold M_bind, bind.
  rewrite get_stock_price_run.
  destruct (history E (ticker +:+ ".NS") "6mo") as [data|e]; [|done]. simpl.
  destruct (last data) as [b|] eqn:Hlast.
  - assert (Hne : empty_frame data = false).
    { destruct (empty_frame data) eqn:He; [|done].
      apply empty_frame_last in He. congruence. }
    rewrite Hne. simpl. unfold mbind, M_bind, bind. rewrite emit_run.
    rewrite iloc_last_run, last_fmap_Close, Hlast. simpl.
    erewrite save_to_db_run by (simpl; eauto). simpl.
    eexists. split; [reflexivity|]. simpl.
    rewrite lookup_insert_eq. repeat split. lia.
  - apply empty_frame_last in Hlast. rewrite Hlast. simpl.
    eexists. split; [reflexivity|]. simpl.
    rewrite app_nil_r. repeat split; [done..|lia].
Qed.

Lemma for_each_track_one_ready E tickers : forall w rows,
  conn_open w = true ->
  disk w = view w ->
  view w !! "stocks" = Some rows ->
  Forall (answers E) tickers ->
  exists w',
    for_each (track_one E) tickers w = (Ok tt, w') /\
    conn_open w' = true /\
    disk w' = view w' /\
    view w' !! "stocks" =
      Some (rows ++ stamp E (clock_reads w) (flat_map (latest_close E) tickers)).
Proof.
  induction tickers as [|t tickers IH]; intros w rows Hopen Hdisk Hrows Hans; simpl.
  - exists w. by rewrite app_nil_r.
  - inversion Hans as [|? ? Ht Htl]; subst.
    destruct (track_one_ready E t w rows Hopen Hdisk Hrows Ht)
      as [w1 [Hrun [Hopen1 [Hdisk1 [Hrows1 Hclock1]]]]].
    destruct (IH w1 _ Hopen1 Hdisk1 Hrows1 Htl) as [w2 [Hrun2 [Hopen2 [Hdisk2 Hrows2]]]].
    exists w2. split; [by rewrite (bind_ok _ _ _ _ _ Hrun)|].
    split; [done|]. split; [done|].
    by rewrite Hrows2, Hclock1, stamp_app, app_assoc.
Qed.

(** C2. On a working store, for tickers the provider answers about, the
    comparison batch completes, and the [INSERT]s it issues are, ticker by
    ticker in the order given, one for each non-empty series, carrying the
    ticker and the close of the last bar of its series, and none for an
    empty series; those are the rows the table has gained, committed, when
    the batch returns. *)
Theorem track_multiple_stocks_saves_latest_close E tickers w rows :
  conn_open w = true ->
  disk w = view w ->
  view w !! "stocks" = Some rows ->
  Forall (answers E) tickers ->
  exists w' new,
    track_multiple_stocks E tickers w = (Ok tt, w') /\
    trace w' = trace w ++ new /\
    inserts new = flat_map (latest_close E) tickers /\
    view w' !! "stocks" =
      Some (rows ++ stamp E (clock_reads w) (flat_map (latest_close E) tickers)) /\
    disk w' = view w'.
Proof.
  intros Hopen Hdisk Hrows Hans.
  destruct (track_multiple_stocks_inserts E tickers w) as [new [k [Ht [_ [Hi Hok]]]]].
  rewrite track_multiple_stocks_run in Ht, Hok |- *.
  match goal with |- context [for_each _ _ ?w0] =>
    destruct (for_each_track_one_ready E tickers w0 rows Hopen Hdisk Hrows Hans)
      as [w1 [Hrun [_ [Hdisk1 Hrows1]]]] end.
  rewrite Hrun in Ht, Hok |- *. simpl in *.
  eexists _, new. split; [reflexivity|]. simpl.
  rewrite Hi, (Hok eq_refl), firstn_all. by repeat split.
Qed.

Lemma track_multiple_stocks_saves_latest_close_witness :
  exists w' new,
    track_multiple_stocks sample_env ["X"; "ZZZZ999"; "X"] fresh_store = (Ok tt, w') /\
    trace w' = trace fresh_store ++ new /\
    inserts new = flat_map (latest_close sample_env) ["X"; "ZZZZ999"; "X"] /\
    view w' !! "stocks" =
      Some ([] ++ stamp sample_env (clock_reads fresh_store)
                    (flat_map (latest_close sample_env) ["X"; "ZZZZ999"; "X"])) /\
    disk w' = view w'.
Proof.
  apply (track_multiple_stocks_saves_latest_close sample_env
           ["X"; "ZZZZ999"; "X"] fresh_store []); try reflexivity.
  repeat constructor.
Defined.

Example batch_logs_108 :
  flat_map (latest_close sample_env) ["X"; "ZZZZ999"; "X"] = [("X", q 108); ("X", q 108)].
Proof. reflexivity. Qed.

(** ** What every operation of the script preserves

    A relation between the state before and the state after that is
    reflexive and transitive, and that holds across each primitive step other
    than [conn.close()], holds across every function of the script and
    across the menu loop, however they end. *)

Section Preserved.

Variable R : world -> world -> Prop.
Hypothesis R_refl : forall w, R w w.
Hypothesis R_trans : forall w1 w2 w3, R w1 w2 -> R w2 w3 -> R w1 w3.
Hypothesis R_emit : forall e w, is_close e = false -> R w (emit e w).2.
Hypothesis R_sql : forall E stmt w, R w (run_sql E stmt w).2.
Hypothesis R_flush : forall w, R w (flush w).2.

Variable E : env.

Definition preserves {A} (m : M A) : Prop := forall w, R w (m w).2.

Lemma preserves_ret {A} (a : A) : preserves (mret a).
Proof. intros w. apply R_refl. Qed.

Lemma preserves_raise {A} e : preserves (@raise A e).
Proof. intros w. apply R_refl. Qed.

Lemma preserves_lift {A} (r : result A) : preserves (lift r).
Proof. intros w. apply R_refl. Qed.

Lemma preserves_bind {A B} (m : M A) (f : A -> M B) :
  preserves m -> (forall a, preserves (f a)) -> preserves (m ≫= f).
Proof.
  intros Hm Hf w. unfold mbind, M_bind, bind.
  specialize (Hm w). destruct (m w) as [[a|e] w1]; simpl in *; [|done].
  eapply R_trans; [exact Hm | apply Hf].
Qed.

Lemma preserves_try_except {A} (m : M A) caught h :
  preserves m -> (forall e, preserves (h e)) -> preserves (try_except m caught h).
Proof.
  intros Hm Hh w. unfold try_except.
  specialize (Hm w). destruct (m w) as [[a|e] w1]; simpl in *; [done|].
  destruct (caught e); [|done].
  eapply R_trans; [exact Hm | apply Hh].
Qed.

Lemma preserves_emit e : is_close e = false -> preserves (emit e).
Proof. intros He w. by apply R_emit. Qed.

Lemma preserves_check_open : preserves check_open.
Proof. intros w. unfold check_open. destruct (conn_open w); apply R_refl. Qed.

Lemma preserves_iloc_last {A} (column : list A) : preserves (iloc_last column).
Proof. intros w. rewrite iloc_last_run. apply R_refl. Qed.

Lemma preserves_for_each {A} (body : A -> M unit) l :
  (forall x, preserves (body x)) -> preserves (for_each body l).
Proof.
  intros Hbody. induction l as [|x l IH]; simpl.
  - apply preserves_ret.
  - apply preserves_bind; [apply Hbody | intros _; exact IH].
Qed.

(** Goals of the form [preserves m], by the structure of [m]. *)
Ltac preserve :=
  repeat match goal with
    | |- preserves (mret _) => apply preserves_ret
    | |- preserves (raise _) => apply preserves_raise
    | |- preserves (lift _) => apply preserves_lift
    | |- preserves check_open => apply preserves_check_open
    | |- preserves (iloc_last _) => apply preserves_iloc_last
    | |- preserves (emit _) => apply preserves_emit; reflexivity
    | |- preserves (mbind _ _) => apply preserves_bind; [|intros ?]
    | |- preserves (try_except _ _ _) => apply preserves_try_except; [|intros ?]
    | |- preserves (for_each _ _) => apply preserves_for_each; intros ?
    | |- preserves (if ?b then _ else _) => destruct b
    | |- preserves (match ?x with _ => _ end) => destruct x
    | H : preserves ?m |- preserves ?m => exact H
    end.

Lemma preserves_cursor_execute stmt : preserves (cursor_execute E stmt).
Proof. unfold cursor_execute. preserve. intros w. apply R_sql. Qed.

Lemma preserves_conn_commit : preserves conn_commit.
Proof. unfold conn_commit. preserve. intros w. apply R_flush. Qed.

Lemma preserves_module_init : preserves (module_init E).
Proof.
  unfold module_init. preserve;
    [apply preserves_cursor_execute | apply preserves_conn_commit].
Qed.

Lemma preserves_save_to_db ticker p : preserves (save_to_db E ticker p).
Proof.
  unfold save_to_db. preserve;
    [apply preserves_cursor_execute | apply preserves_conn_commit].
Qed.

Lemma preserves_get_stock_price ticker : preserves (get_stock_price E ticker).
Proof. unfold get_stock_price, ticker_history. preserve. Qed.

Lemma preserves_get_stock_details ticker : preserves (get_stock_details E ticker).
Proof. unfold get_stock_details, ticker_info. preserve. Qed.

Lemma preserves_fetch_nse_stock_list : preserves (fetch_nse_stock_list E).
Proof. unfold fetch_nse_stock_list. preserve. Qed.

Lemma preserves_track_one ticker : preserves (track_one E ticker).
Proof.
  unfold track_one. preserve;
    [apply preserves_get_stock_price | apply preserves_save_to_db].
Qed.

Lemma preserves_track_multiple_stocks tickers :
  preserves (track_multiple_stocks E tickers).
Proof. unfold track_multiple_stocks. preserve. apply preserves_track_one. Qed.

Lemma preserves_plot_with_moving_averages ticker :
  preserves (plot_with_moving_averages E ticker).
Proof.
  unfold plot_with_moving_averages. preserve. apply preserves_get_stock_price.
Qed.

Lemma preserves_option_1 : preserves (option_1 E).
Proof. unfold option_1. preserve. apply preserves_fetch_nse_stock_list. Qed.

Lemma preserves_option_2 answer : preserves (option_2 E answer).
Proof. unfold option_2. preserve. apply preserves_get_stock_price. Qed.

Lemma preserves_option_3 answer : preserves (option_3 E answer).
Proof. unfold option_3. preserve. apply preserves_get_stock_details. Qed.

Lemma preserves_option_4 answer : preserves (option_4 E answer).
Proof. unfold option_4. apply preserves_track_multiple_stocks. Qed.

Lemma preserves_option_5 answer : preserves (option_5 E answer).
Proof. unfold option_5. apply preserves_plot_with_moving_averages. Qed.

Lemma preserves_input_eof prompt : preserves (input_eof prompt).
Proof. unfold input_eof. preserve. Qed.

(** The loop reads one or two lines a turn: induction on the number of
    lines left. *)
Lemma preserves_menu_loop stdin : preserves (menu_loop E stdin).
Proof.
  induction stdin as [stdin IH] using (induction_ltof1 _ (@length string)).
  unfold ltof in IH.
  destruct stdin as [|choice stdin1]; simpl.
  - preserve. apply preserves_input_eof.
  - assert (IH1 : preserves (menu_loop E stdin1)) by (apply IH; simpl; lia).
    assert (IH2 : forall answer stdin2, stdin1 = answer :: stdin2 ->
                    preserves (menu_loop E stdin2)).
    { intros answer stdin2 ->. apply IH. simpl. lia. }
    apply preserves_bind; [preserve|intros _].
    apply preserves_bind; [preserve|intros _].
    destruct (String.eqb choice "1").
    { preserve. apply preserves_option_1. }
    destruct (String.eqb choice "2").
    { destruct stdin1 as [|answer stdin2]; [apply preserves_input_eof|].
      preserve; [apply preserves_option_2 | by eapply IH2]. }
    destruct (String.eqb choice "3").
    { destruct stdin1 as [|answer stdin2]; [apply preserves_input_eof|].
      preserve; [apply preserves_option_3 | by eapply IH2]. }
    destruct (String.eqb choice "4").
    { destruct stdin1 as [|answer stdin2]; [apply preserves_input_eof|].
      preserve; [apply preserves_option_4 | by eapply IH2]. }
    destruct (String.eqb choice "5").
    { destruct stdin1 as [|answer stdin2]; [apply preserves_input_eof|].
      preserve; [apply preserves_option_5 | by eapply IH2]. }
    destruct (String.eqb choice "6"); preserve.
Qed.

End Preserved.

(** ** Closing the connection *)

Lemma closes_app tr1 tr2 : closes (tr1 ++ tr2) = (closes tr1 + closes tr2)%nat.
Proof. unfold closes. by rewrite filter_app, length_app. Qed.

Lemma same_handle_menu_loop E stdin w : same_handle w (menu_loop E stdin w).2.
Proof.
  apply (preserves_menu_loop same_handle).
  - by intros ?.
  - intros w1 w2 w3 [H1 H2] [H3 H4]. split; congruence.
  - intros e w0 He. split; [|done]. simpl. rewrite closes_app.
    destruct e; try discriminate He; simpl; unfold closes; simpl; lia.
  - intros E0 stmt w0. unfold run_sql.
    destruct stmt; by destruct (view w0 !! table).
  - by intros ?.
Qed.

Lemma conn_close_run w :
  conn_close w =
    (Ok tt, World (disk w) (disk w) false (clock_reads w) (trace w ++ [CloseConn])).
Proof. reflexivity. Qed.

Lemma script_run E stdin w :
  conn_open w = true ->
  script E stdin w =
    match menu_loop E stdin (module_init E w).2 with
    | (Ok _, w2) => conn_close w2
    | (Raise e, w2) => (Raise e, w2)
    end.
Proof.
  intros Hopen. unfold script. unfold mbind at 1. unfold M_bind, bind.
  rewrite module_init_run by done. simpl. unfold mbind, M_bind, bind.
  by destruct (menu_loop _ _ _) as [[[]|e] w2].
Qed.

(** C7, as amended. A run that leaves the menu loop normally (by choice 6)
    calls [conn.close()] exactly once and ends with the connection closed;
    a run ended by an uncaught exception (no line left to read, a failure of
    the provider) never calls it and ends with the connection still open. *)
Theorem conn_close_once_on_normal_exit E file stdin :
  match (run E file stdin).1 with
  | Ok _ =>
      closes (trace (run E file stdin).2) = 1%nat /\
      conn_open (run E file stdin).2 = false
  | Raise _ =>
      closes (trace (run E file stdin).2) = 0%nat /\
      conn_open (run E file stdin).2 = true
  end.
Proof.
  unfold run. rewrite script_run by reflexivity.
  pose proof (same_handle_menu_loop E stdin (module_init E (connect file)).2) as [Hc Ho].
  rewrite module_init_run in Hc, Ho |- * by reflexivity. simpl in *.
  destruct (menu_loop _ _ _) as [[[]|e] w2]; simpl in *.
  - rewrite closes_app, Hc. by split.
  - by split.
Qed.

(** C7 as stated fails: when standard input ends at the first prompt, and
    when the provider fails on a price lookup, the script stops on the
    exception and [conn.close()] is never called; leaving by choice 6 calls
    it once. *)
Lemma conn_close_skipped_on_exception :
  (run sample_env ∅ []).1 = Raise EOFError /\
  closes (trace (run sample_env ∅ []).2) = 0%nat /\
  conn_open (run sample_env ∅ []).2 = true /\
  (run sample_env ∅ ["2"; "down"]).1 = Raise ProviderError /\
  closes (trace (run sample_env ∅ ["2"; "down"]).2) = 0%nat /\
  closes (trace (run sample_env ∅ ["6"]).2) = 1%nat.
Proof. vm_compute. repeat split; reflexivity. Qed.

(** ** Append-only *)

Lemma grows_refl c : grows c c.
Proof. intros t rows Ht. exists []. by rewrite app_nil_r. Qed.

Lemma grows_trans c1 c2 c3 : grows c1 c2 -> grows c2 c3 -> grows c1 c3.
Proof.
  intros H12 H23 t rows Ht.
  destruct (H12 t rows Ht) as [x1 H2]. destruct (H23 t _ H2) as [x2 H3].
  exists (x1 ++ x2). by rewrite app_assoc.
Qed.

Lemma only_appends_refl w : only_appends w w.
Proof. intros H. split; [done | apply grows_refl]. Qed.

Lemma only_appends_trans w1 w2 w3 :
  only_appends w1 w2 -> only_appends w2 w3 -> only_appends w1 w3.
Proof.
  intros H12 H23 H1. destruct (H12 H1) as [H2 Hd12]. destruct (H23 H2) as [H3 Hd23].
  split; [done | by eapply grows_trans].
Qed.

Lemma only_appends_run_sql E stmt w : only_appends w (run_sql E stmt w).2.
Proof.
  intros Hinv. unfold run_sql. destruct stmt as [table|table sym p].
  - destruct (view w !! table) eqn:Hv; simpl; (split; [|apply grows_refl]); [done|].
    intros t rows Ht. destruct (Hinv t rows Ht) as [extra Hx].
    exists extra. rewrite lookup_insert_ne; [done|]. intros <-. congruence.
  - destruct (view w !! table) as [rows0|] eqn:Hv; simpl;
      (split; [|apply grows_refl]); [|done].
    intros t rows Ht. destruct (Hinv t rows Ht) as [extra Hx].
    destruct (decide (table = t)) as [<-|Hne].
    + rewrite lookup_insert_eq. rewrite Hv in Hx. inversion Hx; subst.
      eexists. by rewrite <- app_assoc.
    + exists extra. by rewrite lookup_insert_ne.
Qed.

Lemma only_appends_menu_loop E stdin w : only_appends w (menu_loop E stdin w).2.
Proof.
  apply (preserves_menu_loop only_appends).
  - apply only_appends_refl.
  - apply only_appends_trans.
  - intros e w0 _ Hinv. simpl. split; [done | apply grows_refl].
  - apply only_appends_run_sql.
  - intros w0 Hinv. simpl. split; [apply grows_refl | done].
Qed.

Lemma only_appends_module_init E w : only_appends w (module_init E w).2.
Proof.
  apply (preserves_module_init only_appends).
  - apply only_appends_refl.
  - apply only_appends_trans.
  - intros e w0 _ Hinv. simpl. split; [done | apply grows_refl].
  - apply only_appends_run_sql.
  - intros w0 Hinv. simpl. split; [apply grows_refl | done].
Qed.

Lemma only_appends_run E file stdin : grows file (disk (run E file stdin).2).
Proof.
  unfold run. rewrite script_run by reflexivity.
  pose proof (only_appends_module_init E (connect file)) as H1.
  pose proof (only_appends_menu_loop E stdin (module_init E (connect file)).2) as H2.
  destruct (only_appends_trans _ _ _ H1 H2 (grows_refl file)) as [_ Hd].
  destruct (menu_loop _ _ _) as [[[]|e] w2]; simpl in *; done.
Qed.

(** C9. The store is an append-only log. Whatever the provider, the input
    and the way the run ends, every table of the database file keeps the rows
    it had, in their order, with new rows only after them; the same holds
    across the start-up statements, a call of [save_to_db] and a comparison
    batch taken alone. Nothing enforces uniqueness: logging a symbol twice on
    one day leaves two rows with that symbol and that date, whatever rows the
    table already had. *)
Theorem store_append_only E :
  (forall file stdin, grows file (disk (run E file stdin).2)) /\
  (forall w, only_appends w (module_init E w).2) /\
  (forall w ticker p, only_appends w (save_to_db E ticker p w).2) /\
  (forall w tickers, only_appends w (track_multiple_stocks E tickers w).2) /\
  (forall w rows ticker p1 p2,
     conn_open w = true ->
     view w !! "stocks" = Some rows ->
     sqlite_date_now E (S (clock_reads w)) = sqlite_date_now E (clock_reads w) ->
     exists d,
       disk (save_to_db E ticker p2 (save_to_db E ticker p1 w).2).2 !! "stocks" =
         Some (rows ++ [Row ticker d p1; Row ticker d p2])).
Proof.
  assert (Hflush : forall w0, only_appends w0 (flush w0).2).
  { intros w0 Hinv. simpl. split; [apply grows_refl | done]. }
  assert (Hemit : forall e w0, is_close e = false -> only_appends w0 (emit e w0).2).
  { intros e w0 _ Hinv. simpl. split; [done | apply grows_refl]. }
  split; [apply only_appends_run|].
  split; [apply only_appends_module_init|].
  split.
  { intros w ticker p.
    apply (preserves_save_to_db only_appends);
      first [ apply only_appends_refl | apply only_appends_trans | exact Hemit
            | apply only_appends_run_sql | exact Hflush ]. }
  split.
  { intros w tickers.
    apply (preserves_track_multiple_stocks only_appends);
      first [ apply only_appends_refl | apply only_appends_trans | exact Hemit
            | apply only_appends_run_sql | exact Hflush ]. }
  intros w rows ticker p1 p2 Hopen Hrows Hday.
  exists (sqlite_date_now E (clock_reads w)).
  rewrite (save_to_db_run E ticker p1 w rows) by done. simpl.
  erewrite save_to_db_run; [|reflexivity|simpl; apply lookup_insert_eq].
  simpl. rewrite lookup_insert_eq, Hday, <- app_assoc. reflexivity.
Qed.

Lemma store_append_only_witness :
  exists d,
    disk (save_to_db sample_env "X" (q 108)
            (save_to_db sample_env "X" (q 108) fresh_store).2).2 !! "stocks" =
      Some ([] ++ [Row "X" d (q 108); Row "X" d (q 108)]).
Proof.
  apply (proj2 (proj2 (proj2 (proj2 (store_append_only sample_env))))
           fresh_store [] "X" (q 108) (q 108)); reflexivity.
Defined.

(** ** Moving averages *)

Lemma sum_list_app xs ys : sum_list (xs ++ ys) = (sum_list xs + sum_list ys)%Qc.
Proof.
  induction xs as [|x xs IH]; simpl.
  - by rewrite Qcplus_0_l.
  - rewrite IH. ring.
Qed.

Lemma foldl_add_mean st xs :
  foldl add_mean st (Some <$> xs) =
    MeanState (nobs st + length xs) (sum_x st + sum_list xs)%Qc.
Proof.
  revert st. induction xs as [|x xs IH]; intros [n s]; simpl.
  - f_equal; [lia | ring].
  - rewrite IH. simpl. f_equal; [lia | ring].
Qed.

Lemma foldl_remove_mean st xs :
  foldl remove_mean st (Some <$> xs) =
    MeanState (nobs st - length xs) (sum_x st - sum_list xs)%Qc.
Proof.
  revert st. induction xs as [|x xs IH]; intros [n s]; simpl.
  - f_equal; [lia | ring].
  - rewrite IH. simpl. f_equal; [lia | ring].
Qed.

Lemma slice_fmap {A B} (f : A -> B) (l : list A) a b :
  slice (f <$> l) a b = f <$> slice l a b.
Proof. unfold slice. by rewrite fmap_take, fmap_drop. Qed.

Lemma length_slice {A} (l : list A) a b :
  (b <= length l)%nat -> length (slice l a b) = (b - a)%nat.
Proof. intros Hb. unfold slice. rewrite length_take, length_drop. lia. Qed.

Lemma slice_split {A} (l : list A) a m b :
  (a <= m)%nat -> (m <= b)%nat -> slice l a b = slice l a m ++ slice l m b.
Proof.
  intros Ham Hmb. unfold slice.
  replace (b - a)%nat with ((m - a) + (b - m))%nat by lia.
  rewrite <- take_take_drop, drop_drop. do 3 f_equal. lia.
Qed.

(** Sliding the window from [a, b) to [a', b'): drop what leaves, add what
    enters. *)
Lemma slide_window (xs : list Qc) a b a' b' :
  (a <= a')%nat -> (a' <= b)%nat -> (b <= b')%nat -> (b' <= length xs)%nat ->
  foldl add_mean
    (foldl remove_mean (stat (slice xs a b)) (slice (Some <$> xs) a a'))
    (slice (Some <$> xs) b b') =
  stat (slice xs a' b').
Proof.
  intros Haa Hab Hbb Hlen.
  rewrite !slice_fmap, foldl_remove_mean, foldl_add_mean. unfold stat. simpl.
  rewrite (slice_split xs a a' b) by lia.
  rewrite (slice_split xs a' b b') by lia.
  rewrite !sum_list_app, !length_app, !length_slice by lia.
  f_equal; [lia | ring].
Qed.

(** After the turn for position [k] the running state is the number and sum
    of the values under the window ending at [k]. *)
Lemma roll_mean_state window (xs : list Qc) k st :
  (1 <= window)%nat ->
  (k < length xs)%nat ->
  (k = 0%nat \/ st = stat (under_window window xs (k - 1))) ->
  (if (k =? 0)%nat || (window_end (k - 1) <=? window_start window k)%nat
   then foldl add_mean mean_zero
          (slice (Some <$> xs) (window_start window k) (window_end k))
   else
     foldl add_mean
       (foldl remove_mean st
          (slice (Some <$> xs) (window_start window (k - 1)) (window_start window k)))
       (slice (Some <$> xs) (window_end (k - 1)) (window_end k))) =
  stat (under_window window xs k).
Proof.
  intros Hw Hk Hst.
  destruct ((k =? 0)%nat || (window_end (k - 1) <=? window_start window k)%nat) eqn:Hc.
  - rewrite slice_fmap, foldl_add_mean. unfold stat, under_window. simpl.
    f_equal. ring.
  - apply orb_false_iff in Hc as [Hk0 Hlt].
    apply Nat.eqb_neq in Hk0. apply Nat.leb_gt in Hlt.
    destruct Hst as [-> | ->]; [done|].
    unfold under_window, window_start, window_end in *.
    apply slide_window; lia.
Qed.

Lemma roll_mean_loop_spec window minp (xs : list Qc) :
  (1 <= window)%nat ->
  forall n k st,
    (k + n = length xs)%nat ->
    (k = 0%nat \/ st = stat (under_window window xs (k - 1))) ->
    roll_mean_loop window minp (Some <$> xs) (seq k n) st =
      (fun i => calc_mean minp (stat (under_window window xs i))) <$> seq k n.
Proof.
  intros Hw. induction n as [|n IH]; intros k st Hlen Hst; simpl; [done|].
  rewrite (roll_mean_state window xs k st) by (done || lia).
  f_equal. apply IH; [lia|]. right. by rewrite Nat.sub_succ, Nat.sub_0_r.
Qed.

(** The mean over the window, or NaN while fewer than [window] values are
    under it. *)
Lemma calc_mean_window window (xs : list Qc) i :
  (1 <= window)%nat ->
  (i < length xs)%nat ->
  calc_mean window (stat (under_window window xs i)) =
    if decide (i + 1 < window)%nat then None
    else Some (mean (trailing window xs i)).
Proof.
  intros Hw Hi. unfold calc_mean, stat, under_window. simpl.
  rewrite length_slice by (unfold window_end; lia).
  unfold window_start, window_end.
  destruct (decide (i + 1 < window)%nat) as [Hlt|Hge].
  - replace (window <=? i + 1 - (i + 1 - window))%nat with false; [done|].
    symmetry. apply Nat.leb_gt. lia.
  - replace (i + 1 - (i + 1 - window))%nat with window by lia.
    rewrite Nat.leb_refl. replace (0 <? window)%nat with true
      by (symmetry; apply Nat.ltb_lt; lia).
    simpl. unfold mean, trailing, slice.
    replace (i + 1 - (i + 1 - window))%nat with window by lia.
    rewrite length_take, length_drop.
    by replace (window `min` (length xs - (i + 1 - window)))%nat with window by lia.
Qed.

(** [rolling(window).mean()] on a column without NaN: position by position,
    NaN before the window is full, then the arithmetic mean of the trailing
    [window] values. *)
Lemma rolling_mean_spec window (xs : list Qc) :
  (1 <= window)%nat ->
  length (rolling_mean window (Some <$> xs)) = length xs /\
  forall i, (i < length xs)%nat ->
    rolling_mean window (Some <$> xs) !! i =
      Some (if decide (i + 1 < window)%nat then None
            else Some (mean (trailing window xs i))).
Proof.
  intros Hw. unfold rolling_mean. rewrite length_fmap.
  rewrite (roll_mean_loop_spec window window xs Hw) by (lia || by left).
  split; [by rewrite length_fmap, length_seq|].
  intros i Hi. rewrite list_lookup_fmap, lookup_seq_lt by done. simpl.
  by rewrite calc_mean_window.
Qed.

(** C5. For a series of at least 200 bars, the 50-day and the 200-day
    columns each have the length of the series; the first 49 entries of the
    one and the first 199 of the other are NaN, and no other; every later
    entry is the arithmetic mean of the 50, respectively 200, closes that end
    at its position. *)
Theorem moving_averages_50_200 (data : list bar) :
  (200 <= length data)%nat ->
  length (MA_50 data) = length data /\
  length (MA_200 data) = length data /\
  forall i, (i < length data)%nat ->
    MA_50 data !! i =
      Some (if decide (i < 49)%nat then None
            else Some (mean (trailing 50 (Close <$> data) i))) /\
    MA_200 data !! i =
      Some (if decide (i < 199)%nat then None
            else Some (mean (trailing 200 (Close <$> data) i))).
Proof.
  intros Hlen. unfold MA_50, MA_200.
  destruct (rolling_mean_spec 50 (Close <$> data)) as [Hl50 Hv50]; [lia|].
  destruct (rolling_mean_spec 200 (Close <$> data)) as [Hl200 Hv200]; [lia|].
  rewrite length_fmap in *.
  split; [done|]. split; [done|]. intros i Hi.
  rewrite Hv50, Hv200 by done. split.
  - destruct (decide (i + 1 < 50)%nat), (decide (i < 49)%nat); (done || lia).
  - destruct (decide (i + 1 < 200)%nat), (decide (i < 199)%nat); (done || lia).
Qed.

Lemma moving_averages_50_200_witness :
  length (MA_50 (ramp 200)) = length (ramp 200) /\
  length (MA_200 (ramp 200)) = length (ramp 200) /\
  forall i, (i < length (ramp 200))%nat ->
    MA_50 (ramp 200) !! i =
      Some (if decide (i < 49)%nat then None
            else Some (mean (trailing 50 (Close <$> ramp 200) i))) /\
    MA_200 (ramp 200) !! i =
      Some (if decide (i < 199)%nat then None
            else Some (mean (trailing 200 (Close <$> ramp 200) i))).
Proof.
  apply (moving_averages_50_200 (ramp 200)). vm_compute. lia.
Defined.

Example rolling_mean_3_of_five :
  readings (rolling_mean 3 (Some <$> (Close <$> five_closes))) =
    [None; None; Some (102 # 1); Some (104 # 1); Some (106 # 1)].
Proof. vm_compute. reflexivity. Qed.

(** A NaN in the column keeps every window that covers it unknown. *)
Example rolling_mean_nan_widens_gap :
  readings (rolling_mean 2 [Some (q 1); None; Some (q 3); Some (q 5)]) =
    [None; None; None; Some (4 # 1)].
Proof. vm_compute. reflexivity. Qed.

(** ** Beyond the claims: the symbol list *)

(** X1. [fetch_nse_stock_list] catches a [RequestException] of the index
    request only: it then prints the error and returns [None]. The request
    that opens the session is made before the [try], so any failure of it,
    a [RequestException] included, leaves the function as an exception; so
    does any other failure of the index request. On success every entry
    carries the symbol as company name and the symbol followed by ".NS". *)
Theorem fetch_nse_stock_list_outcomes E w :
  (forall e, nse_home E = Raise e -> (fetch_nse_stock_list E w).1 = Raise e) /\
  (nse_home E = Ok tt ->
   (nse_index E = Raise RequestException ->
      (fetch_nse_stock_list E w).1 = Ok None /\
      last (trace (fetch_nse_stock_list E w).2) = Some (Print ListError)) /\
   (forall e, nse_index E = Raise e -> e <> RequestException ->
      (fetch_nse_stock_list E w).1 = Raise e) /\
   (forall syms, nse_index E = Ok syms ->
      exists l,
        (fetch_nse_stock_list E w).1 = Ok (Some l) /\
        l.*1 = syms /\
        l.*2 = (fun sym => sym +:+ ".NS") <$> syms)).
Proof.
  unfold fetch_nse_stock_list, try_except. unfold_M. simpl. split.
  - intros e He. by rewrite He.
  - intros Hhome. rewrite Hhome. simpl. split; [|split].
    + intros Hidx. rewrite Hidx. simpl. split; [done|]. by rewrite last_snoc.
    + intros e Hidx Hne. rewrite Hidx. simpl. by destruct e.
    + intros syms Hidx. rewrite Hidx. simpl. eexists. split; [reflexivity|].
      split.
      * rewrite <- list_fmap_compose. by rewrite <- (list_fmap_id syms) at 2.
      * by rewrite <- list_fmap_compose.
Qed.

Lemma fetch_nse_stock_list_outcomes_witness :
  exists l,
    (fetch_nse_stock_list sample_env fresh_store).1 = Ok (Some l) /\
    l.*1 = ["X"] /\
    l.*2 = (fun sym => sym +:+ ".NS") <$> ["X"].
Proof.
  apply (proj2 (proj2 (proj2 (fetch_nse_stock_list_outcomes sample_env fresh_store)
                         eq_refl))); reflexivity.
Defined.

(** ** Beyond the claims: what the lookups leave alone *)

Lemma same_store_refl w : same_store w w.
Proof. by repeat split. Qed.

Lemma same_store_trans w1 w2 w3 :
  same_store w1 w2 -> same_store w2 w3 -> same_store w1 w3.
Proof.
  intros (H1 & H2 & H3 & H4) (H5 & H6 & H7 & H8). repeat split; congruence.
Qed.

Lemma same_store_emit e w : is_close e = false -> same_store w (emit e w).2.
Proof. intros _. by repeat split. Qed.

(** X2. The symbol list (choice 1), the price lookup (choice 2), the
    descriptor lookup (choice 3) and the moving-average chart (choice 5)
    never touch the store, however they end: the file, the connection's
    view, the handle and the clock are what they were. Only the comparison
    batch writes. *)
Theorem lookups_leave_store_alone E answer w :
  same_store w (option_1 E w).2 /\
  same_store w (option_2 E answer w).2 /\
  same_store w (option_3 E answer w).2 /\
  same_store w (option_5 E answer w).2.
Proof.
  split; [|split; [|split]].
  - apply (preserves_option_1 same_store);
      first [ apply same_store_refl | apply same_store_trans | apply same_store_emit ].
  - apply (preserves_option_2 same_store);
      first [ apply same_store_refl | apply same_store_trans | apply same_store_emit ].
  - apply (preserves_option_3 same_store);
      first [ apply same_store_refl | apply same_store_trans | apply same_store_emit ].
  - apply (preserves_option_5 same_store);
      first [ apply same_store_refl | apply same_store_trans | apply same_store_emit ].
Qed.

(** ** Beyond the claims: the single-ticker lookups *)

(** X3. The price lookup (choice 2) queries the upper-cased ticker; when the
    provider has bars it prints the close of the last bar, and when it has
    none it prints the no-data message; in both cases it returns normally
    and does nothing else. *)
Theorem price_lookup_prints_last_close E answer w data :
  history E (upper answer +:+ ".NS") "6mo" = Ok data ->
  exists shown,
    option_2 E answer w =
      (Ok tt,
       World (disk w) (view w) (conn_open w) (clock_reads w)
         (trace w ++ [QueryHistory (upper answer +:+ ".NS") "6mo"; Print shown])) /\
    shown = match last data with
            | Some b => CurrentPrice (upper answer) (Close b)
            | None => NoDataAvailable
            end.
Proof.
  intros Hh. unfold option_2. unfold mbind at 1. unfold M_bind, bind.
  rewrite get_stock_price_run, Hh.
  destruct (last data) as [b|] eqn:Hlast.
  - assert (Hne : empty_frame data = false).
    { destruct (empty_frame data) eqn:He; [|done].
      apply empty_frame_last in He. congruence. }
    rewrite Hne. simpl. unfold mbind, M_bind, bind.
    rewrite iloc_last_run, last_fmap_Close, Hlast. simpl.
    eexists. split; [|reflexivity]. rewrite emit_run. simpl.
    by rewrite <- app_assoc.
  - apply empty_frame_last in Hlast. rewrite Hlast. simpl.
    eexists. split; [|reflexivity]. rewrite emit_run. simpl.
    by rewrite <- app_assoc.
Qed.

Lemma price_lookup_prints_last_close_witness :
  exists shown,
    option_2 sample_env "x" fresh_store =
      (Ok tt,
       World (disk fresh_store) (view fresh_store) (conn_open fresh_store)
         (clock_reads fresh_store)
         (trace fresh_store ++ [QueryHistory (upper "x" +:+ ".NS") "6mo"; Print shown])) /\
    shown = match last five_closes with
            | Some b => CurrentPrice (upper "x") (Close b)
            | None => NoDataAvailable
            end.
Proof.
  apply (price_lookup_prints_last_close sample_env "x" fresh_store five_closes).
  reflexivity.
Defined.

(** A turn of the menu on a choice that takes a ticker. *)
Lemma menu_loop_turn E choice answer rest w :
  menu_loop E (choice :: answer :: rest) w =
    (emit (Print Menu) ;;
     emit (Input (choice_prompt)) ;;
     if String.eqb choice "1" then option_1 E ;; menu_loop E (answer :: rest)
     else if String.eqb choice "2" then
       emit (Input ticker_prompt) ;; option_2 E answer ;; menu_loop E rest
     else if String.eqb choice "3" then
       emit (Input ticker_prompt) ;; option_3 E answer ;; menu_loop E rest
     else if String.eqb choice "4" then
       emit (Input tickers_prompt) ;; option_4 E answer ;; menu_loop E rest
     else if String.eqb choice "5" then
       emit (Input ticker_prompt) ;; option_5 E answer ;; menu_loop E rest
     else if String.eqb choice "6" then emit (Print Exiting)
     else emit (Print InvalidChoice) ;; menu_loop E (answer :: rest)) w.
Proof. reflexivity. Qed.

(** X4. Nothing catches a failure of the provider during a lookup: when the
    series query fails, a turn on choice 2 or 5 ends the whole loop with
    that exception, and so does a turn on choice 3 when the snapshot query
    fails, whatever input was still to come. *)
Theorem provider_failure_ends_the_loop E answer rest w e :
  (history E (upper answer +:+ ".NS") "6mo" = Raise e ->
   (menu_loop E ("2" :: answer :: rest) w).1 = Raise e /\
   (menu_loop E ("5" :: answer :: rest) w).1 = Raise e) /\
  (info E (upper answer +:+ ".NS") = Raise e ->
   (menu_loop E ("3" :: answer :: rest) w).1 = Raise e).
Proof.
  split.
  - intros Hh. rewrite !menu_loop_turn. simpl.
    unfold option_2, option_5, plot_with_moving_averages.
    unfold mbind, M_bind, bind. rewrite !emit_run, !get_stock_price_run. simpl.
    by rewrite Hh.
  - intros Hi. rewrite menu_loop_turn. simpl.
    unfold option_3, get_stock_details.
    unfold mbind, M_bind, bind. rewrite !emit_run, !ticker_info_run. simpl.
    by rewrite Hi.
Qed.

Lemma provider_failure_ends_the_loop_witness :
  (menu_loop sample_env ("2" :: "down" :: ["6"]) fresh_store).1 = Raise ProviderError /\
  (menu_loop sample_env ("5" :: "down" :: ["6"]) fresh_store).1 = Raise ProviderError.
Proof.
  apply (proj1 (provider_failure_ends_the_loop sample_env "down" ["6"] fresh_store
                  ProviderError)).
  reflexivity.
Defined.

(** ** Beyond the claims: the moving-average chart *)

Lemma rolling_mean_short window (xs : list Qc) :
  (1 <= window)%nat ->
  (length xs < window)%nat ->
  rolling_mean window (Some <$> xs) = replicate (length xs) None.
Proof.
  intros Hw Hshort.
  destruct (rolling_mean_spec window xs Hw) as [Hlen Hval].
  apply list_eq. intros i.
  destruct (decide (i < length xs)%nat) as [Hi|Hi].
  - rewrite Hval by done. rewrite lookup_replicate_2 by done.
    destruct (decide (i + 1 < window)%nat); [done | lia].
  - rewrite !lookup_ge_None_2; [done | rewrite length_replicate; lia | lia].
Qed.

(** X5. A series of fewer than 200 bars has a 200-day column that is NaN
    throughout, and one of fewer than 50 bars a 50-day column that is NaN
    throughout: the chart then shows no such curve. *)
Theorem moving_average_of_short_series (data : list bar) :
  ((length data < 200)%nat -> MA_200 data = replicate (length data) None) /\
  ((length data < 50)%nat -> MA_50 data = replicate (length data) None).
Proof.
  unfold MA_200, MA_50. split; intros Hshort.
  - rewrite rolling_mean_short; rewrite ?length_fmap; (done || lia).
  - rewrite rolling_mean_short; rewrite ?length_fmap; (done || lia).
Qed.

Lemma moving_average_of_short_series_witness :
  MA_200 (ramp 120) = replicate (length (ramp 120)) None.
Proof.
  apply (proj1 (moving_average_of_short_series (ramp 120))). vm_compute. lia.
Defined.

Lemma plots_app tr1 tr2 : plots (tr1 ++ tr2) = plots tr1 ++ plots tr2.
Proof. apply omap_app. Qed.

(** X6. [plot_with_moving_averages]: when the provider has no bars it prints
    the no-data message and draws nothing; when it has bars it draws exactly
    three curves over the dates of the series, the closes and the two moving
    averages, each with one point per date, then shows the chart; in both
    cases it returns normally. *)
Theorem plot_with_moving_averages_curves E ticker w data :
  history E (ticker +:+ ".NS") "6mo" = Ok data ->
  exists new,
    plot_with_moving_averages E ticker w =
      (Ok tt,
       World (disk w) (view w) (conn_open w) (clock_reads w) (trace w ++ new)) /\
    match data with
    | [] => new = [QueryHistory (ticker +:+ ".NS") "6mo"; Print (NoDataFor ticker)]
    | _ =>
        plots new =
          [ (Date <$> data, Some <$> (Close <$> data), "Closing Price");
            (Date <$> data, MA_50 data, "50-day MA");
            (Date <$> data, MA_200 data, "200-day MA") ] /\
        Forall (fun c => length c.1.2 = length c.1.1) (plots new) /\
        last new = Some (Plt Show)
    end.
Proof.
  intros Hh.
  assert (H50 : length (MA_50 data) = length data).
  { unfold MA_50. destruct (rolling_mean_spec 50 (Close <$> data)) as [Hl _]; [lia|].
    by rewrite Hl, length_fmap. }
  assert (H200 : length (MA_200 data) = length data).
  { unfold MA_200. destruct (rolling_mean_spec 200 (Close <$> data)) as [Hl _]; [lia|].
    by rewrite Hl, length_fmap. }
  unfold plot_with_moving_averages. unfold mbind at 1. unfold M_bind, bind.
  rewrite get_stock_price_run, Hh.
  set (ma50 := MA_50 data) in *. set (ma200 := MA_200 data) in *.
  clearbody ma50 ma200.
  destruct data as [|b data]; cbn [empty_frame].
  - eexists. rewrite emit_run. cbn [fst snd disk view conn_open clock_reads trace].
    rewrite <- app_assoc. by split.
  - remember (b :: data) as bars eqn:Hbars. clear Hbars.
    unfold mbind, M_bind, bind. repeat (rewrite emit_run; simpl).
    rewrite <- !app_assoc. eexists. split; [reflexivity|].
    split; [reflexivity|]. split; [|reflexivity].
    repeat constructor; simpl; rewrite ?length_fmap; done.
Qed.

Lemma plot_with_moving_averages_curves_witness :
  exists new,
    plot_with_moving_averages sample_env "X" fresh_store =
      (Ok tt,
       World (disk fresh_store) (view fresh_store) (conn_open fresh_store)
         (clock_reads fresh_store) (trace fresh_store ++ new)) /\
    match five_closes with
    | [] => new = [QueryHistory ("X" +:+ ".NS") "6mo"; Print (NoDataFor "X")]
    | _ =>
        plots new =
          [ (Date <$> five_closes, Some <$> (Close <$> five_closes), "Closing Price");
            (Date <$> five_closes, MA_50 five_closes, "50-day MA");
            (Date <$> five_closes, MA_200 five_closes, "200-day MA") ] /\
        Forall (fun c => length c.1.2 = length c.1.1) (plots new) /\
        last new = Some (Plt Show)
    end.
Proof.
  apply (plot_with_moving_averages_curves sample_env "X" fresh_store five_closes).
  reflexivity.
Defined.

(** ** Beyond the claims: a batch cut short *)

Lemma for_each_app {A} (body : A -> M unit) l1 l2 w :
  for_each body (l1 ++ l2) w =
    match for_each body l1 w with
    | (Ok _, w1) => for_each body l2 w1
    | (Raise e, w1) => (Raise e, w1)
    end.
Proof.
  revert w. induction l1 as [|x l1 IH]; intros w; simpl; [done|].
  unfold mbind, M_bind, bind. destruct (body x w) as [[[]|e] w1]; [|done].
  apply IH.
Qed.

Lemma track_one_raises E ticker w e :
  history E (ticker +:+ ".NS") "6mo" = Raise e ->
  track_one E ticker w =
    (Raise e,
     World (disk w) (view w) (conn_open w) (clock_reads w)
       (trace w ++ [QueryHistory (ticker +:+ ".NS") "6mo"])).
Proof.
  intros Hh. unfold track_one. unfold mbind, M_bind, bind.
  by rewrite get_stock_price_run, Hh.
Qed.

(** X7. When the series query fails for one ticker of a batch, the batch
    ends there with that exception: the failing query is the last thing it
    does, so no later ticker is looked up and the chart is never shown; the
    rows logged for the tickers before it stay, committed. *)
Theorem batch_stops_at_failing_ticker E before ticker after w rows e :
  conn_open w = true ->
  disk w = view w ->
  view w !! "stocks" = Some rows ->
  Forall (answers E) before ->
  history E (ticker +:+ ".NS") "6mo" = Raise e ->
  exists w',
    track_multiple_stocks E (before ++ ticker :: after) w = (Raise e, w') /\
    last (trace w') = Some (QueryHistory (ticker +:+ ".NS") "6mo") /\
    disk w' !! "stocks" =
      Some (rows ++ stamp E (clock_reads w) (flat_map (latest_close E) before)).
Proof.
  intros Hopen Hdisk Hrows Hans Hh.
  rewrite track_multiple_stocks_run, for_each_app.
  match goal with |- context [for_each _ before ?w0] =>
    destruct (for_each_track_one_ready E before w0 rows Hopen Hdisk Hrows Hans)
      as [w1 [Hrun [_ [Hdisk1 Hrows1]]]] end.
  rewrite Hrun. simpl. unfold mbind, M_bind, bind.
  rewrite (track_one_raises E ticker w1 e Hh).
  eexists. split; [reflexivity|]. simpl. split.
  - by rewrite last_snoc.
  - by rewrite Hdisk1.
Qed.

Lemma batch_stops_at_failing_ticker_witness :
  exists w',
    track_multiple_stocks sample_env (["X"] ++ "DOWN" :: ["X"]) fresh_store =
      (Raise ProviderError, w') /\
    last (trace w') = Some (QueryHistory ("DOWN" +:+ ".NS") "6mo") /\
    disk w' !! "stocks" =
      Some ([] ++ stamp sample_env (clock_reads fresh_store)
                    (flat_map (latest_close sample_env) ["X"])).
Proof.
  apply (batch_stops_at_failing_ticker sample_env ["X"] "DOWN" ["X"] fresh_store []
           ProviderError); try reflexivity.
  repeat constructor.
Defined.

(** ** Beyond the claims: invariants of the state and the exceptions that
    can leave the script

    [ensures Q' m]: from a state satisfying the invariant [P], [m] ends in a
    state satisfying [P], and an exception it ends with satisfies [Q']. The
    section assumes this of [save_to_db], with [Q] for every failure of the
    provider and for the end of input, and derives it for every function
    above [save_to_db] and for the menu loop. *)

Section Ensured.

Variable P : world -> Prop.
Variable Q : exn -> Prop.
Variable E : env.

Definition ensures {A} (Q' : exn -> Prop) (m : M A) : Prop :=
  forall w, P w -> P (m w).2 /\ forall e, (m w).1 = Raise e -> Q' e.

Hypothesis P_emit : forall e w, P w -> P (emit e w).2.
Hypothesis Q_eof : Q EOFError.
Hypothesis Q_history : forall sym period e, history E sym period = Raise e -> Q e.
Hypothesis Q_info : forall sym e, info E sym = Raise e -> Q e.
Hypothesis Q_home : forall e, nse_home E = Raise e -> Q e.
Hypothesis Q_index :
  forall e, nse_index E = Raise e -> is_request_exception e = false -> Q e.
Hypothesis save_ensured : forall ticker p, ensures Q (save_to_db E ticker p).

Lemma ensures_ret {A} Q' (a : A) : ensures Q' (mret a).
Proof. intros w Hw. split; [done|]. intros e He. inversion He. Qed.

Lemma ensures_raise {A} (Q' : exn -> Prop) e : Q' e -> ensures Q' (@raise A e).
Proof. intros Hq w Hw. split; [done|]. intros e' He. by inversion He; subst. Qed.

Lemma ensures_lift {A} (Q' : exn -> Prop) (r : result A) :
  (forall e, r = Raise e -> Q' e) -> ensures Q' (lift r).
Proof. intros Hr w Hw. split; [done|]. intros e He. by apply Hr. Qed.

Lemma ensures_emit Q' e : ensures Q' (emit e).
Proof. intros w Hw. split; [by apply P_emit|]. intros e' He. inversion He. Qed.

Lemma ensures_bind {A B} Q' (m : M A) (f : A -> M B) :
  ensures Q' m -> (forall a, ensures Q' (f a)) -> ensures Q' (m ≫= f).
Proof.
  intros Hm Hf w Hw. unfold mbind, M_bind, bind.
  destruct (Hm w Hw) as [Hp Hq]. destruct (m w) as [[a|e] w1]; simpl in *.
  - by apply Hf.
  - split; [done|]. intros e' He. inversion He; subst. by apply Hq.
Qed.

Lemma ensures_try_except {A} (m : M A) caught h :
  ensures (fun e => caught e = true \/ Q e) m ->
  (forall e, ensures Q (h e)) ->
  ensures Q (try_except m caught h).
Proof.
  intros Hm Hh w Hw. unfold try_except.
  destruct (Hm w Hw) as [Hp Hq]. destruct (m w) as [[a|e] w1]; simpl in *.
  - split; [done|]. intros e He. inversion He.
  - destruct (caught e) eqn:Hc; [by apply Hh|].
    split; [done|]. intros e' He. inversion He; subst.
    destruct (Hq e' eq_refl) as [Hc'|Hq']; [congruence | done].
Qed.

Lemma ensures_for_each {A} Q' (body : A -> M unit) l :
  (forall x, ensures Q' (body x)) -> ensures Q' (for_each body l).
Proof.
  intros Hbody. induction l as [|x l IH]; simpl.
  - apply ensures_ret.
  - apply ensures_bind; [apply Hbody | intros _; exact IH].
Qed.

(** [.iloc[-1]] on a column that has a row raises nothing. *)
Lemma ensures_iloc_last {A} Q' (x : A) (column : list A) :
  ensures Q' (iloc_last (x :: column)).
Proof.
  intros w Hw. rewrite iloc_last_run. split; [done|].
  destruct (last (x :: column)) eqn:Hl; [intros e He; inversion He|].
  by apply last_None in Hl.
Qed.

Ltac ensure :=
  repeat match goal with
    | |- ensures _ (mret _) => apply ensures_ret
    | |- ensures _ (emit _) => apply ensures_emit
    | |- ensures _ (iloc_last (_ :: _)) => apply ensures_iloc_last
    | |- ensures _ (iloc_last (_ <$> _ :: _)) => apply ensures_iloc_last
    | |- ensures _ (mbind _ _) => apply ensures_bind; [|intros ?]
    | |- ensures _ (for_each _ _) => apply ensures_for_each; intros ?
    | H : ensures ?Q' ?m |- ensures ?Q' ?m => exact H
    end.

Lemma ensures_get_stock_price ticker : ensures Q (get_stock_price E ticker).
Proof.
  unfold get_stock_price, ticker_history. ensure.
  apply ensures_lift. apply Q_history.
Qed.

Lemma ensures_get_stock_details ticker : ensures Q (get_stock_details E ticker).
Proof.
  unfold get_stock_details, ticker_info. ensure.
  apply ensures_lift. apply Q_info.
Qed.

Lemma ensures_fetch_nse_stock_list : ensures Q (fetch_nse_stock_list E).
Proof.
  unfold fetch_nse_stock_list. ensure; [by apply ensures_lift|].
  apply ensures_try_except; [|intros e; ensure].
  ensure. apply ensures_lift. intros e He.
  destruct (is_request_exception e) eqn:Hr; [by left | right; by apply Q_index].
Qed.

Lemma ensures_track_one ticker : ensures Q (track_one E ticker).
Proof.
  unfold track_one. apply ensures_bind; [apply ensures_get_stock_price|].
  intros [|b data]; simpl; ensure. apply save_ensured.
Qed.

Lemma ensures_track_multiple_stocks tickers :
  ensures Q (track_multiple_stocks E tickers).
Proof. unfold track_multiple_stocks. ensure. apply ensures_track_one. Qed.

Lemma ensures_plot_with_moving_averages ticker :
  ensures Q (plot_with_moving_averages E ticker).
Proof.
  unfold plot_with_moving_averages.
  apply ensures_bind; [apply ensures_get_stock_price|].
  intros [|b data]; simpl; ensure.
Qed.

Lemma ensures_option_1 : ensures Q (option_1 E).
Proof.
  unfold option_1. apply ensures_bind; [apply ensures_fetch_nse_stock_list|].
  intros [l|]; ensure.
Qed.

Lemma ensures_option_2 answer : ensures Q (option_2 E answer).
Proof.
  unfold option_2. apply ensures_bind; [apply ensures_get_stock_price|].
  intros [|b data]; simpl; ensure.
Qed.

Lemma ensures_option_3 answer : ensures Q (option_3 E answer).
Proof.
  unfold option_3. apply ensures_bind; [apply ensures_get_stock_details|].
  intros details. ensure.
Qed.

Lemma ensures_input_eof prompt : ensures Q (input_eof prompt).
Proof. unfold input_eof. ensure. by apply ensures_raise. Qed.

Lemma ensures_menu_loop stdin : ensures Q (menu_loop E stdin).
Proof.
  induction stdin as [stdin IH] using (induction_ltof1 _ (@length string)).
  unfold ltof in IH.
  destruct stdin as [|choice stdin1]; simpl.
  - ensure. apply ensures_input_eof.
  - assert (IH1 : ensures Q (menu_loop E stdin1)) by (apply IH; simpl; lia).
    assert (IH2 : forall answer stdin2, stdin1 = answer :: stdin2 ->
                    ensures Q (menu_loop E stdin2)).
    { intros answer stdin2 ->. apply IH. simpl. lia. }
    apply ensures_bind; [ensure|intros _].
    apply ensures_bind; [ensure|intros _].
    destruct (String.eqb choice "1").
    { ensure. apply ensures_option_1. }
    destruct (String.eqb choice "2").
    { destruct stdin1 as [|answer stdin2]; [apply ensures_input_eof|].
      ensure; [apply ensures_option_2 | by eapply IH2]. }
    destruct (String.eqb choice "3").
    { destruct stdin1 as [|answer stdin2]; [apply ensures_input_eof|].
      ensure; [apply ensures_option_3 | by eapply IH2]. }
    destruct (String.eqb choice "4").
    { destruct stdin1 as [|answer stdin2]; [apply ensures_input_eof|].
      ensure; [apply ensures_track_multiple_stocks | by eapply IH2]. }
    destruct (String.eqb choice "5").
    { destruct stdin1 as [|answer stdin2]; [apply ensures_input_eof|].
      ensure; [apply ensures_plot_with_moving_averages | by eapply IH2]. }
    destruct (String.eqb choice "6"); ensure.
Qed.

End Ensured.

(** The connection is open and the table of the script exists. *)
Lemma save_to_db_keeps_store_usable E ticker p w :
  conn_open w = true /\ is_Some (view w !! "stocks") ->
  (conn_open (save_to_db E ticker p w).2 = true /\
   is_Some (view (save_to_db E ticker p w).2 !! "stocks")) /\
  forall e, (save_to_db E ticker p w).1 = Raise e -> outside_failure e = true.
Proof.
  intros [Hopen [rows Hrows]]. rewrite (save_to_db_run E ticker p w rows) by done.
  simpl. split; [|intros e He; inversion He].
  split; [done|]. rewrite lookup_insert_eq. by eexists.
Qed.

Lemma save_to_db_no_index_error E ticker p w :
  (save_to_db E ticker p w).1 <> Raise IndexError.
Proof.
  unfold save_to_db, cursor_execute, conn_commit, run_sql. unfold_M. simpl.
  destruct (conn_open w) eqn:Hopen; simpl; [|discriminate].
  destruct (view w !! "stocks"); simpl; [|discriminate].
  rewrite ?Hopen. discriminate.
Qed.

Lemma outside_failure_not_index e : outside_failure e = true -> e <> IndexError.
Proof. by intros He ->. Qed.

Lemma sample_env_raises_only_outside : raises_only_outside sample_env.
Proof.
  repeat split; simpl.
  - intros sym period e.
    destruct (String.eqb sym "X.NS"); [discriminate|].
    destruct (String.eqb sym "DOWN.NS"); [|discriminate].
    by intros [= <-].
  - intros sym e.
    destruct (String.eqb sym "X.NS"); [discriminate|].
    destruct (String.eqb sym "DOWN.NS"); [|discriminate].
    by intros [= <-].
  - discriminate.
  - discriminate.
Qed.

(** X8. With a provider that raises only failures of its own: from any
    state of the store the menu loop never ends with an [IndexError],
    [.iloc[-1]] being reached only on a series that has a bar; and in a run
    of the script, on a file whose tables hold rows of the script's schema,
    no statement is issued on a closed connection and no [INSERT] before the
    [stocks] table exists, so the run never ends with the engine's
    closed-database or no-such-table error. The engine is taken to fail for
    no other reason: a [stocks] table of another schema and a locked or full
    store are not covered. *)
Theorem run_never_fails_on_its_own E :
  raises_only_outside E ->
  (forall stdin w e, (menu_loop E stdin w).1 = Raise e -> e <> IndexError) /\
  (forall file stdin e,
     (run E file stdin).1 = Raise e ->
     e <> IndexError /\ e <> ProgrammingError /\ e <> OperationalError).
Proof.
  intros (Hhist & Hinfo & Hhome & Hindex). split.
  - intros stdin w e.
    apply (ensures_menu_loop (fun _ => True) (fun e => e <> IndexError) E);
      try done.
    + intros sym period e0 He0. eapply outside_failure_not_index, Hhist, He0.
    + intros sym e0 He0. eapply outside_failure_not_index, Hinfo, He0.
    + intros e0 He0. eapply outside_failure_not_index, Hhome, He0.
    + intros e0 He0 _. eapply outside_failure_not_index, Hindex, He0.
    + intros ticker p w0 _. split; [done|]. intros e0 He0 ->.
      by apply (save_to_db_no_index_error E ticker p w0).
  - intros file stdin e Hrun.
    assert (Hout : outside_failure e = true); [|by destruct e].
    unfold run in Hrun. rewrite script_run in Hrun by reflexivity.
    rewrite module_init_run in Hrun by reflexivity. simpl in Hrun.
    match type of Hrun with context [menu_loop E stdin ?w0] =>
      destruct (ensures_menu_loop
                  (fun w => conn_open w = true /\ is_Some (view w !! "stocks"))
                  (fun e => outside_failure e = true) E) with (stdin := stdin) (w := w0)
        as [_ Hq] end.
    + intros e0 w0 Hw0. exact Hw0.
    + reflexivity.
    + exact Hhist.
    + exact Hinfo.
    + exact Hhome.
    + intros e0 He0 _. by apply Hindex.
    + intros ticker p w0. apply save_to_db_keeps_store_usable.
    + simpl. split; [done|].
      destruct (file !! "stocks") eqn:Hf; [by rewrite Hf|].
      rewrite lookup_insert_eq. by eexists.
    + destruct (menu_loop E stdin _) as [[[]|e0] w2]; simpl in *.
      * inversion Hrun.
      * inversion Hrun; subst. by apply Hq.
Qed.

Lemma run_never_fails_on_its_own_witness :
  (forall stdin w e, (menu_loop sample_env stdin w).1 = Raise e -> e <> IndexError) /\
  (forall file stdin e,
     (run sample_env file stdin).1 = Raise e ->
     e <> IndexError /\ e <> ProgrammingError /\ e <> OperationalError).
Proof.
  apply (run_never_fails_on_its_own sample_env). exact sample_env_raises_only_outside.
Defined.

Example batch_with_failing_ticker_ends_on_provider_error :
  (run sample_env ∅ ["4"; "x, down"; "6"]).1 = Raise ProviderError.
Proof. vm_compute. reflexivity. Qed.

(** [save_to_db] leaves nothing uncommitted, whether it succeeds or fails. *)
Lemma save_to_db_commits E ticker p w :
  disk w = view w ->
  disk (save_to_db E ticker p w).2 = view (save_to_db E ticker p w).2.
Proof.
  intros Hdv. unfold save_to_db, cursor_execute, conn_commit, run_sql.
  unfold_M. simpl.
  destruct (conn_open w) eqn:Hopen; simpl; [|done].
  destruct (view w !! "stocks"); simpl; [|done].
  rewrite ?Hopen. reflexivity.
Qed.

(** X9. Every row is committed as soon as it is written: from a state with
    nothing uncommitted, a comparison batch and the whole menu loop end with
    nothing uncommitted, whether they return or are cut short by an
    exception; so the rows a run has logged are in the file even when the
    run dies without closing the connection. *)
Theorem nothing_left_uncommitted E :
  (forall tickers w,
     disk w = view w ->
     disk (track_multiple_stocks E tickers w).2 =
       view (track_multiple_stocks E tickers w).2) /\
  (forall stdin w,
     disk w = view w ->
     disk (menu_loop E stdin w).2 = view (menu_loop E stdin w).2) /\
  (forall file stdin, disk (run E file stdin).2 = view (run E file stdin).2).
Proof.
  assert (Hsave : forall ticker p,
            ensures (fun w => disk w = view w) (fun _ => True) (save_to_db E ticker p)).
  { intros ticker p w Hw. split; [by apply save_to_db_commits | done]. }
  assert (Hemit : forall e w, disk w = view w -> disk (emit e w).2 = view (emit e w).2).
  { intros e w Hw. exact Hw. }
  assert (Hloop : forall stdin w,
     disk w = view w ->
     disk (menu_loop E stdin w).2 = view (menu_loop E stdin w).2).
  { intros stdin w Hw.
    by apply (ensures_menu_loop (fun w => disk w = view w) (fun _ => True) E). }
  split; [|split].
  - intros tickers w Hw.
    by apply (ensures_track_multiple_stocks (fun w => disk w = view w) (fun _ => True) E).
  - exact Hloop.
  - intros file stdin. unfold run. rewrite script_run by reflexivity.
    pose proof (Hloop stdin (module_init E (connect file)).2) as Hl.
    rewrite module_init_run in Hl |- * by reflexivity. simpl in *.
    specialize (Hl eq_refl).
    by destruct (menu_loop E stdin _) as [[[]|e0] w2].
Qed.

Lemma nothing_left_uncommitted_witness :
  disk (track_multiple_stocks sample_env ["X"; "DOWN"] fresh_store).2 =
    view (track_multiple_stocks sample_env ["X"; "DOWN"] fresh_store).2.
Proof.
  apply (proj1 (nothing_left_uncommitted sample_env) ["X"; "DOWN"] fresh_store).
  reflexivity.
Defined.

(** ** Beyond the claims: leaving the loop *)

Lemma bind_Ok_inv {A B} (m : M A) (f : A -> M B) w b w' :
  (m ≫= f) w = (Ok b, w') ->
  exists a w1, m w = (Ok a, w1) /\ f a w1 = (Ok b, w').
Proof.
  unfold mbind, M_bind, bind. destruct (m w) as [[a|e] w1]; [|discriminate].
  intros H. by exists a, w1.
Qed.

Lemma menu_loop_returns E stdin : forall w w',
  menu_loop E stdin w = (Ok tt, w') ->
  "6" ∈ stdin /\ last (trace w') = Some (Print Exiting).
Proof.
  induction stdin as [stdin IH] using (induction_ltof1 _ (@length string)).
  unfold ltof in IH. intros w w' Hrun.
  destruct stdin as [|choice stdin1]; simpl in Hrun.
  { apply bind_Ok_inv in Hrun as (? & ? & _ & Hrun).
    unfold input_eof in Hrun. apply bind_Ok_inv in Hrun as (? & ? & _ & Hrun).
    discriminate Hrun. }
  apply bind_Ok_inv in Hrun as (? & w1 & _ & Hrun).
  apply bind_Ok_inv in Hrun as (? & w2 & _ & Hrun).
  assert (Hrest : forall rest (m : M unit) w0,
            (length rest < length (choice :: stdin1))%nat ->
            (m ;; menu_loop E rest) w0 = (Ok tt, w') ->
            (forall ln, ln ∈ rest -> ln ∈ choice :: stdin1) ->
            "6" ∈ choice :: stdin1 /\ last (trace w') = Some (Print Exiting)).
  { intros rest m w0 Hlt Hm Hsub.
    apply bind_Ok_inv in Hm as (? & w3 & _ & Hm).
    destruct (IH rest Hlt w3 w' Hm) as [Hin Hlast]. split; [by apply Hsub | done]. }
  assert (Heof : forall prompt w0, input_eof prompt w0 <> (Ok tt, w')).
  { intros prompt w0 H. unfold input_eof in H.
    apply bind_Ok_inv in H as (? & ? & _ & H). discriminate H. }
  destruct (String.eqb choice "1").
  { eapply Hrest; [|exact Hrun|]; [simpl; lia | intros ln Hln; by right]. }
  destruct (String.eqb choice "2").
  { destruct stdin1 as [|answer stdin2]; [by apply Heof in Hrun|].
    apply bind_Ok_inv in Hrun as (? & w3 & _ & Hrun).
    eapply Hrest; [|exact Hrun|]; [simpl; lia | intros ln Hln; by do 2 right]. }
  destruct (String.eqb choice "3").
  { destruct stdin1 as [|answer stdin2]; [by apply Heof in Hrun|].
    apply bind_Ok_inv in Hrun as (? & w3 & _ & Hrun).
    eapply Hrest; [|exact Hrun|]; [simpl; lia | intros ln Hln; by do 2 right]. }
  destruct (String.eqb choice "4").
  { destruct stdin1 as [|answer stdin2]; [by apply Heof in Hrun|].
    apply bind_Ok_inv in Hrun as (? & w3 & _ & Hrun).
    eapply Hrest; [|exact Hrun|]; [simpl; lia | intros ln Hln; by do 2 right]. }
  destruct (String.eqb choice "5").
  { destruct stdin1 as [|answer stdin2]; [by apply Heof in Hrun|].
    apply bind_Ok_inv in Hrun as (? & w3 & _ & Hrun).
    eapply Hrest; [|exact Hrun|]; [simpl; lia | intros ln Hln; by do 2 right]. }
  destruct (String.eqb choice "6") eqn:H6.
  - apply String.eqb_eq in H6 as ->. rewrite emit_run in Hrun.
    inversion Hrun; subst. simpl. split; [by left | by rewrite last_snoc].
  - eapply Hrest; [|exact Hrun|]; [simpl; lia | intros ln Hln; by right].
Qed.

(** X10. The only way out of the menu loop that is not an exception is
    choice 6: a run that ends normally has read a line "6", and the last
    things it did were printing the exit message and closing the
    connection. On an input without a line "6" every run ends with an
    exception. *)
Theorem normal_exit_needs_choice_6 E file stdin :
  (run E file stdin).1 = Ok tt ->
  "6" ∈ stdin /\
  exists tr, trace (run E file stdin).2 = tr ++ [Print Exiting; CloseConn].
Proof.
  unfold run. rewrite script_run by reflexivity.
  destruct (menu_loop E stdin _) as [[[]|e] w2] eqn:Hloop; simpl; [|discriminate].
  intros _. apply menu_loop_returns in Hloop as [Hin Hlast]. split; [done|].
  apply last_Some in Hlast as [tr Htr]. exists tr. by rewrite Htr, <- app_assoc.
Qed.

Lemma normal_exit_needs_choice_6_witness :
  "6" ∈ ["9"; "2"; "zzzz999"; "6"] /\
  exists tr,
    trace (run sample_env ∅ ["9"; "2"; "zzzz999"; "6"]).2 =
      tr ++ [Print Exiting; CloseConn].
Proof.
  apply (normal_exit_needs_choice_6 sample_env ∅ ["9"; "2"; "zzzz999"; "6"]).
  vm_compute. reflexivity.
Defined.

(** ** Beyond the claims: the tickers of a batch *)

Lemma string_app_cons c (a b : string) : String c a +:+ b = String c (a +:+ b).
Proof. reflexivity. Qed.

Lemma string_app_nil_r (s : string) : s +:+ "" = s.
Proof. induction s as [|c s IH]; [done|]. by rewrite string_app_cons, IH. Qed.

Lemma string_app_assoc (a b c : string) : (a +:+ b) +:+ c = a +:+ (b +:+ c).
Proof. induction a as [|x a IH]; [done|]. by rewrite !string_app_cons, IH. Qed.

Lemma split_comma_space_sep s cur :
  split_comma_space (String "," (String " " s)) cur = cur :: split_comma_space s "".
Proof. reflexivity. Qed.

Lemma split_comma_space_end c cur :
  split_comma_space (String c "") cur = [cur +:+ String c ""].
Proof. by destruct c as [[] [] [] [] [] [] [] []]. Qed.

Lemma split_comma_space_char c c' s cur :
  (c <> "," \/ c' <> " ")%char ->
  split_comma_space (String c (String c' s)) cur =
    split_comma_space (String c' s) (cur +:+ String c "").
Proof.
  intros Hne.
  destruct c as [[] [] [] [] [] [] [] []]; try reflexivity.
  destruct c' as [[] [] [] [] [] [] [] []]; try reflexivity.
  by destruct Hne.
Qed.

Lemma split_comma_space_join s : forall cur,
  split_comma_space s cur <> [] /\
  join_comma_space (split_comma_space s cur) = cur +:+ s.
Proof.
  induction s as [s IH] using (induction_ltof1 _ String.length).
  unfold ltof in IH. intros cur.
  destruct s as [|c [|c' s]].
  - split; [done|]. cbn [split_comma_space join_comma_space].
    by rewrite string_app_nil_r.
  - rewrite split_comma_space_end. by split.
  - destruct (decide (c = ","%char /\ c' = " "%char)) as [[-> ->]|Hne].
    + rewrite split_comma_space_sep.
      destruct (IH s) with (cur := "") as [Hnil Hjoin]; [simpl; lia|].
      split; [done|]. change ("" +:+ s) with s in Hjoin.
      destruct (split_comma_space s "") as [|piece pieces] eqn:Hs; [done|].
      change (join_comma_space (cur :: piece :: pieces))
        with (cur +:+ ", " +:+ join_comma_space (piece :: pieces)).
      rewrite Hjoin. reflexivity.
    + rewrite split_comma_space_char
        by (destruct (decide (c = ","%char)); [right; intros ->; by apply Hne | by left]).
      destruct (IH (String c' s)) with (cur := cur +:+ String c "") as [Hnil Hjoin];
        [simpl; lia|].
      split; [done|]. rewrite Hjoin, string_app_assoc. reflexivity.
Qed.

Lemma string_app_nil_l (s : string) : "" +:+ s = s.
Proof. reflexivity. Qed.

Lemma split_comma_space_other c s cur :
  (c <> ","%char \/ forall s', s <> String " " s') ->
  split_comma_space (String c s) cur = split_comma_space s (cur +:+ String c "").
Proof.
  intros Hne. destruct s as [|c' s].
  - by rewrite split_comma_space_end.
  - apply split_comma_space_char. destruct Hne as [Hc|Hs]; [by left|].
    right. intros ->. by eapply Hs.
Qed.

Lemma prepend_prepend a b pieces :
  prepend a (prepend b pieces) = prepend (a +:+ b) pieces.
Proof. destruct pieces as [|p ps]; simpl; [done|]. by rewrite string_app_assoc. Qed.

(** The piece read so far is only a prefix of the first piece. *)
Lemma split_comma_space_acc s : forall cur,
  split_comma_space s cur = prepend cur (split_comma_space s "").
Proof.
  induction s as [s IH] using (induction_ltof1 _ String.length).
  unfold ltof in IH. intros cur.
  destruct s as [|c [|c' s]].
  - cbn [split_comma_space prepend]. by rewrite string_app_nil_r.
  - rewrite !split_comma_space_end. cbn [prepend].
    by rewrite string_app_nil_l.
  - destruct (decide (c = ","%char /\ c' = " "%char)) as [[-> ->]|Hne].
    + rewrite !split_comma_space_sep. cbn [prepend]. by rewrite string_app_nil_r.
    + assert (Hc : (c <> "," \/ c' <> " ")%char)
        by (destruct (decide (c = ","%char)); [right; intros ->; by apply Hne | by left]).
      rewrite !(split_comma_space_char c c') by done.
      rewrite (IH (String c' s)) by (simpl; lia).
      rewrite (IH (String c' s) ltac:(simpl; lia) ("" +:+ String c "")).
      by rewrite prepend_prepend, string_app_nil_l.
Qed.

(** The first piece starts as the string does. *)
Lemma split_comma_space_head s x piece pieces :
  split_comma_space s "" = String x piece :: pieces ->
  exists s', s = String x s'.
Proof.
  destruct s as [|c [|c' s]].
  - discriminate.
  - rewrite split_comma_space_end, string_app_nil_l. intros [= -> _ _]. by eexists.
  - destruct (decide (c = ","%char /\ c' = " "%char)) as [[-> ->]|Hne].
    + rewrite split_comma_space_sep. discriminate.
    + assert (Hc : (c <> "," \/ c' <> " ")%char)
        by (destruct (decide (c = ","%char)); [right; intros ->; by apply Hne | by left]).
      rewrite (split_comma_space_char c c') by done.
      rewrite split_comma_space_acc, string_app_nil_l.
      destruct (split_comma_space (String c' s) "") as [|p ps]; [discriminate|].
      cbn [prepend]. rewrite string_app_cons, string_app_nil_l.
      intros [= -> _ _]. by eexists.
Qed.

Lemma sep_free_empty : sep_free "".
Proof. intros [|y a] b; rewrite ?string_app_cons; discriminate. Qed.

Lemma sep_free_cons c piece :
  sep_free piece ->
  (c <> ","%char \/ forall piece', piece <> String " " piece') ->
  sep_free (String c piece).
Proof.
  intros Hfree Hne [|y a] b.
  - rewrite string_app_nil_l, !string_app_cons, string_app_nil_l.
    intros [= -> ->]. destruct Hne as [Hc|Hp]; [done | by eapply Hp].
  - rewrite string_app_cons. intros [= -> ->]. by eapply Hfree.
Qed.

Lemma sep_free_tail c piece : sep_free (String c piece) -> sep_free piece.
Proof.
  intros Hfree a b ->. apply (Hfree (String c a) b). by rewrite string_app_cons.
Qed.

Lemma split_comma_space_sep_free s : Forall sep_free (split_comma_space s "").
Proof.
  induction s as [s IH] using (induction_ltof1 _ String.length).
  unfold ltof in IH.
  destruct s as [|c [|c' s]].
  - repeat constructor. apply sep_free_empty.
  - rewrite split_comma_space_end, string_app_nil_l. repeat constructor.
    apply sep_free_cons; [apply sep_free_empty | by right].
  - destruct (decide (c = ","%char /\ c' = " "%char)) as [[-> ->]|Hne].
    + rewrite split_comma_space_sep. constructor; [apply sep_free_empty|].
      apply IH. simpl. lia.
    + assert (Hc : (c <> "," \/ c' <> " ")%char)
        by (destruct (decide (c = ","%char)); [right; intros ->; by apply Hne | by left]).
      rewrite (split_comma_space_char c c') by done.
      rewrite split_comma_space_acc, string_app_nil_l.
      pose proof (IH (String c' s) ltac:(simpl; lia)) as Hall.
      destruct (split_comma_space (String c' s) "") as [|p ps] eqn:Hs; [done|].
      cbn [prepend]. rewrite string_app_cons, string_app_nil_l.
      inversion Hall as [|? ? Hp Hps]; subst. constructor; [|done].
      apply sep_free_cons; [done|].
      destruct Hc as [Hc|Hc']; [by left|]. right. intros piece' ->.
      apply split_comma_space_head in Hs as [s' [= -> _]]. done.
Qed.

(** A separator-free piece followed by a separator is cut off there. *)
Lemma split_comma_space_piece piece : forall rest cur,
  sep_free piece ->
  split_comma_space (piece +:+ ", " +:+ rest) cur =
    (cur +:+ piece) :: split_comma_space rest "".
Proof.
  induction piece as [|c piece IH]; intros rest cur Hfree.
  - rewrite string_app_nil_l, !string_app_cons, string_app_nil_l.
    by rewrite split_comma_space_sep, string_app_nil_r.
  - rewrite string_app_cons, split_comma_space_other.
    + rewrite IH by (by eapply sep_free_tail).
      by rewrite string_app_assoc, string_app_cons, string_app_nil_l.
    + destruct (decide (c = ","%char)) as [->|Hc]; [|by left]. right.
      intros s' Heq. destruct piece as [|c' piece].
      * rewrite string_app_nil_l, !string_app_cons in Heq. discriminate Heq.
      * rewrite string_app_cons in Heq. injection Heq as -> _.
        apply (Hfree "" piece). by rewrite string_app_nil_l, !string_app_cons.
Qed.

(** A separator-free string is a single piece. *)
Lemma split_comma_space_single piece : forall cur,
  sep_free piece -> split_comma_space piece cur = [cur +:+ piece].
Proof.
  induction piece as [|c piece IH]; intros cur Hfree.
  - cbn [split_comma_space]. by rewrite string_app_nil_r.
  - rewrite split_comma_space_other.
    + rewrite IH by (by eapply sep_free_tail).
      by rewrite string_app_assoc, string_app_cons, string_app_nil_l.
    + destruct (decide (c = ","%char)) as [->|Hc]; [|by left]. right.
      intros s' ->. apply (Hfree "" s'). by rewrite string_app_nil_l, !string_app_cons.
Qed.

Lemma split_comma_space_of_join pieces :
  pieces <> [] ->
  Forall sep_free pieces ->
  split_comma_space (join_comma_space pieces) "" = pieces.
Proof.
  induction pieces as [|p [|p' pieces] IH]; intros Hne Hall; [done| |].
  - inversion Hall; subst. cbn [join_comma_space].
    by rewrite split_comma_space_single, string_app_nil_l.
  - inversion Hall as [|? ? Hp Hall']; subst.
    change (join_comma_space (p :: p' :: pieces))
      with (p +:+ ", " +:+ join_comma_space (p' :: pieces)).
    rewrite split_comma_space_piece, string_app_nil_l by done.
    by rewrite IH.
Qed.

(** X11. The tickers of a batch are exactly the pieces of the upper-cased
    answer between the separators ", ": the list is not empty (an empty
    answer gives the one empty ticker), joining it with ", " gives the
    upper-cased answer back, no ticker holds a separator, and it is the only
    list with these three properties. So every separator cuts, nothing else
    does, and no character is lost or added. *)
Theorem batch_tickers_are_the_pieces (answer : string) :
  let tickers := split_comma_space (upper answer) "" in
  tickers <> [] /\
  join_comma_space tickers = upper answer /\
  Forall sep_free tickers /\
  forall pieces,
    pieces <> [] ->
    join_comma_space pieces = upper answer ->
    Forall sep_free pieces ->
    pieces = tickers.
Proof.
  intros tickers. subst tickers.
  destruct (split_comma_space_join (upper answer) "") as [Hne Hjoin].
  rewrite string_app_nil_l in Hjoin.
  split; [done|]. split; [done|]. split; [apply split_comma_space_sep_free|].
  intros pieces Hp Hj Hall. rewrite <- Hj. symmetry.
  by apply split_comma_space_of_join.
Qed.

Lemma batch_tickers_are_the_pieces_witness :
  ["TCS"; "RELIANCE,INFY"; ""] = split_comma_space (upper "tcs, reliance,infy, ") "".
Proof.
  apply (proj2 (proj2 (proj2 (batch_tickers_are_the_pieces "tcs, reliance,infy, ")))).
  - discriminate.
  - reflexivity.
  - repeat constructor;
      repeat first [ apply sep_free_empty
                   | apply sep_free_cons; [|first [by left | by right]] ].
Defined.

Example batch_tickers_of_answer :
  split_comma_space (upper "tcs, reliance,infy, ") "" = ["TCS"; "RELIANCE,INFY"; ""].
Proof. reflexivity. Qed.

(** ** Beyond the claims: the chart and the queries of a batch *)

Lemma queries_app tr1 tr2 : queries (tr1 ++ tr2) = queries tr1 ++ queries tr2.
Proof. apply omap_app. Qed.

Lemma save_to_db_events E ticker p w :
  exists new,
    trace (save_to_db E ticker p w).2 = trace w ++ new /\
    plots new = [] /\ queries new = [].
Proof.
  unfold save_to_db. unfold mbind, M_bind, bind.
  pose proof (cursor_execute_trace E (InsertInto "stocks" ticker p) w) as Hx.
  destruct (cursor_execute E (InsertInto "stocks" ticker p) w) as [[[]|e] w1];
    simpl in *.
  - pose proof (conn_commit_trace w1) as Hc. rewrite Hx in Hc.
    exists [Execute (InsertInto "stocks" ticker p); Commit].
    split; [by rewrite Hc, <- app_assoc | done].
  - exists [Execute (InsertInto "stocks" ticker p)]. by split.
Qed.

Lemma track_one_chart E ticker w :
  exists new,
    trace (track_one E ticker w).2 = trace w ++ new /\
    plots new = curve_of E ticker /\
    queries new = [(ticker +:+ ".NS", "6mo")].
Proof.
  unfold track_one, curve_of. unfold mbind at 1. unfold M_bind, bind.
  rewrite get_stock_price_run.
  destruct (history E (ticker +:+ ".NS") "6mo") as [[|b data]|e];
    cbn [fst snd empty_frame negb].
  - by exists [QueryHistory (ticker +:+ ".NS") "6mo"].
  - assert (Hlast : exists latest, last (Close <$> b :: data) = Some latest).
    { destruct (last (Close <$> b :: data)) as [latest|] eqn:Hl; [by eexists|].
      by apply last_None in Hl. }
    destruct Hlast as [latest Hlast].
    remember (b :: data) as bars eqn:Hbars. clear Hbars.
    unfold mbind, M_bind, bind. rewrite emit_run, iloc_last_run, Hlast.
    cbn [fst snd disk view conn_open clock_reads trace].
    match goal with |- context [save_to_db E ticker latest ?w0] =>
      destruct (save_to_db_events E ticker latest w0) as [new [Ht [Hp Hq]]] end.
    cbn [trace] in Ht. rewrite Ht.
    eexists (_ :: _ :: new). split.
    + rewrite <- !app_assoc. reflexivity.
    + change (QueryHistory ?a ?b :: Plt ?c :: new)
        with ([QueryHistory a b; Plt c] ++ new).
      rewrite plots_app, queries_app, Hp, Hq. by split.
  - by exists [QueryHistory (ticker +:+ ".NS") "6mo"].
Qed.

Lemma for_each_track_one_chart E tickers w :
  exists new k,
    trace (for_each (track_one E) tickers w).2 = trace w ++ new /\
    plots new = flat_map (curve_of E) (take k tickers) /\
    queries new = (fun t => (t +:+ ".NS", "6mo")) <$> take k tickers /\
    ((for_each (track_one E) tickers w).1 = Ok tt -> k = length tickers).
Proof.
  revert w. induction tickers as [|t tickers IH]; intros w; simpl.
  - exists [], 0%nat. unfold_M. simpl. by rewrite app_nil_r.
  - unfold mbind, M_bind, bind.
    destruct (track_one_chart E t w) as [new1 [Ht1 [Hp1 Hq1]]].
    destruct (track_one E t w) as [[[]|e] w1]; simpl in *.
    + destruct (IH w1) as [new2 [k [Ht2 [Hp2 [Hq2 Hok]]]]].
      exists (new1 ++ new2), (S k). repeat split.
      * by rewrite Ht2, Ht1, app_assoc.
      * rewrite plots_app, Hp1, Hp2. reflexivity.
      * rewrite queries_app, Hq1, Hq2. reflexivity.
      * intros Hres. by rewrite (Hok Hres).
    + exists new1, 1%nat. repeat split; [done | | | done].
      * rewrite Hp1. simpl. rewrite ?take_0. simpl. by rewrite app_nil_r.
      * rewrite Hq1. simpl. by rewrite ?take_0.
Qed.

(** X12. On a working store, for tickers the provider answers about, a
    comparison batch sends one series query per ticker, in the order given,
    and its chart holds one curve for each ticker that has bars, in that
    order, labelled with the ticker and giving one close per date of its
    series; a ticker without bars gets no curve. *)
Theorem batch_chart_one_curve_per_ticker E tickers w rows :
  conn_open w = true ->
  disk w = view w ->
  view w !! "stocks" = Some rows ->
  Forall (answers E) tickers ->
  exists new,
    trace (track_multiple_stocks E tickers w).2 = trace w ++ new /\
    queries new = (fun t => (t +:+ ".NS", "6mo")) <$> tickers /\
    plots new = flat_map (curve_of E) tickers /\
    Forall (fun c => length c.1.2 = length c.1.1 /\ c.2 ∈ tickers) (plots new) /\
    last new = Some (Plt Show).
Proof.
  intros Hopen Hdisk Hrows Hans.
  rewrite track_multiple_stocks_run.
  match goal with |- context [for_each _ _ ?w0] =>
    destruct (for_each_track_one_chart E tickers w0) as [new [k [Ht [Hp [Hq Hok]]]]];
    destruct (for_each_track_one_ready E tickers w0 rows Hopen Hdisk Hrows Hans)
      as [w1 [Hrun _]] end.
  rewrite Hrun in Ht, Hok |- *. simpl in *.
  rewrite (Hok eq_refl), firstn_all in Hp, Hq.
  eexists (Plt Figure :: new ++ _). split; [|split; [|split; [|split]]].
  - rewrite Ht, <- !app_assoc. simpl. reflexivity.
  - change (Plt Figure :: ?l) with ([Plt Figure] ++ l).
    rewrite !queries_app, Hq. simpl. by rewrite app_nil_r.
  - change (Plt Figure :: ?l) with ([Plt Figure] ++ l).
    rewrite !plots_app, Hp. simpl. by rewrite app_nil_r.
  - change (Plt Figure :: ?l) with ([Plt Figure] ++ l).
    rewrite !plots_app, Hp. simpl. rewrite app_nil_r.
    apply Forall_forall. intros c Hc.
    apply list_elem_of_In, in_flat_map in Hc as [t [Ht' Hc]].
    unfold curve_of in Hc.
    destruct (history E (t +:+ ".NS") "6mo") as [[|b data]|e]; simpl in Hc; try done.
    destruct Hc as [<-|[]]. simpl. split; [by rewrite !length_fmap|].
    by apply list_elem_of_In.
  - rewrite app_comm_cons, last_app. reflexivity.
Qed.

Lemma batch_chart_one_curve_per_ticker_witness :
  exists new,
    trace (track_multiple_stocks sample_env ["X"; "ZZZZ999"] fresh_store).2 =
      trace fresh_store ++ new /\
    queries new = (fun t => (t +:+ ".NS", "6mo")) <$> ["X"; "ZZZZ999"] /\
    plots new = flat_map (curve_of sample_env) ["X"; "ZZZZ999"] /\
    Forall (fun c => length c.1.2 = length c.1.1 /\ c.2 ∈ ["X"; "ZZZZ999"]) (plots new) /\
    last new = Some (Plt Show).
Proof.
  apply (batch_chart_one_curve_per_ticker sample_env ["X"; "ZZZZ999"] fresh_store []);
    try reflexivity.
  repeat constructor.
Defined.
